(** * rustls-split: staging buffers (src/buffer.rs) and the split halves (src/lib.rs) *)

From Stdlib Require Import List Arith Lia Bool.
From Stdlib Require Import Init.Byte.
Import ListNotations.

(** ** std::io results *)

(** The error kinds that occur in the code, plus the transport's own. *)
Inductive ErrorKind :=
| UnexpectedEof
| InvalidInput
| InvalidData
| ConnectionAborted
| WouldBlock
| NotConnected
| Other.

(** [io::Result<T>]; an [io::Error] is represented by its kind. *)
Inductive IoResult (A : Type) :=
| Ok (a : A)
| Err (e : ErrorKind).
Arguments Ok {A} a.
Arguments Err {A} e.

(** ** src/buffer.rs *)
Module Buffer.

(** [BufCfg<D>]: the seed bytes ([D: Into<Vec<u8>>]) and the minimum capacity. *)
Record BufCfg := { initial_data : list byte; min_capacity : nat }.

Definition with_capacity (capacity : nat) : BufCfg :=
  {| initial_data := []; min_capacity := capacity |}.

Definition with_data (initial_data : list byte) (min_capacity : nat) : BufCfg :=
  {| initial_data := initial_data; min_capacity := min_capacity |}.

(** [struct Internals { buf: Box<[u8]>, start: usize, end: usize }]
    ([end] is a keyword of Rocq, hence [end_]). *)
Record Internals := { buf : list byte; start : nat; end_ : nat }.

(** [Vec::resize(n, 0)]: truncate or pad with zero bytes up to length [n]. *)
Definition resize (v : list byte) (n : nat) : list byte :=
  firstn n v ++ repeat x00 (n - length v).

(** [Internals::build_from]; [None] is the panic of [assert_ne!(buf.len(), 0)]. *)
Definition build_from (cfg : BufCfg) : option Internals :=
  let buf0 := initial_data cfg in
  let end0 := length buf0 in
  let buf1 := if length buf0 <? min_capacity cfg
              then resize buf0 (min_capacity cfg) else buf0 in
  if length buf1 =? 0 then None
  else Some {| buf := buf1; start := 0; end_ := end0 |}.

Definition is_empty (s : Internals) : bool := end_ s =? 0.

Definition is_full (s : Internals) : bool := end_ s =? length (buf s).

Definition advance_start (s : Internals) (delta : nat) : Internals :=
  let st := start s + delta in
  if st =? end_ s then {| buf := buf s; start := 0; end_ := 0 |}
  else {| buf := buf s; start := st; end_ := end_ s |}.

(** Slicing [v[a..b]]; [None] is the out-of-range panic. *)
Definition slice (v : list byte) (a b : nat) : option (list byte) :=
  if (a <=? b) && (b <=? length v) then Some (firstn (b - a) (skipn a v))
  else None.

(** [dst[off..][..d.len()].copy_from_slice(d)] on a fixed-size slice: the bytes
    of [d] overwrite [v] from offset [off]; the length of [v] never changes. *)
Fixpoint overwrite (v : list byte) (off : nat) (d : list byte) : list byte :=
  match v, off, d with
  | [], _, _ => []
  | x :: v', S o, _ => x :: overwrite v' o d
  | _ :: v', 0, y :: d' => y :: overwrite v' 0 d'
  | _, 0, [] => v
  end.

(** [ReadBuffer::read_from(reader)]: the reader is handed [buf[end..]]; its
    outcome is the argument [r]: either an error, or the bytes it placed at
    the front of the slice (it returns their count). *)
Definition read_from (s : Internals) (r : IoResult (list byte))
  : option (Internals * IoResult nat) :=
  match slice (buf s) (end_ s) (length (buf s)) with
  | None => None
  | Some _ =>
      match r with
      | Err e => Some (s, Err e)
      | Ok data =>
          Some ({| buf := overwrite (buf s) (end_ s) data;
                   start := start s;
                   end_ := end_ s + length data |}, Ok (length data))
      end
  end.

(** [<ReadBuffer as io::Read>::read] into a destination of length [dst_len]:
    the new state and the bytes copied to the destination. *)
Definition read (s : Internals) (dst_len : nat) : option (Internals * list byte) :=
  match slice (buf s) (start s) (end_ s) with
  | None => None
  | Some src =>
      let len := Nat.min (length src) dst_len in
      Some (advance_start s len, firstn len src)
  end.

(** [WriteBuffer::write_to(writer)]: the writer is handed [buf[start..end]];
    [w] is its outcome (an error or the count it reports written). *)
Definition write_to (s : Internals) (w : IoResult nat)
  : option (Internals * IoResult nat) :=
  match slice (buf s) (start s) (end_ s) with
  | None => None
  | Some _ =>
      match w with
      | Err e => Some (s, Err e)
      | Ok n => Some (advance_start s n, Ok n)
      end
  end.

(** [<WriteBuffer as io::Write>::write(src)]. *)
Definition write (s : Internals) (src : list byte) : option (Internals * nat) :=
  match slice (buf s) (end_ s) (length (buf s)) with
  | None => None
  | Some dst =>
      let len := Nat.min (length dst) (length src) in
      Some ({| buf := overwrite (buf s) (end_ s) (firstn len src);
               start := start s;
               end_ := end_ s + len |}, len)
  end.

(** [<WriteBuffer as io::Write>::flush]. *)
Definition flush (s : Internals) : Internals * IoResult unit :=
  (s, Err InvalidInput).

(** The pending region [buf[start..end]] and the capacity. *)
Definition pending (s : Internals) : list byte :=
  firstn (end_ s - start s) (skipn (start s) (buf s)).

Definition capacity (s : Internals) : nat := length (buf s).

End Buffer.

(** Operation sequences on one staging buffer.  [step s ins outs s'] is one
    successful call of [read_from], [write_to], raw [write] (append) or raw
    [read] (drain), where [ins] are the bytes added to the buffer and [outs]
    the bytes taken out of it.  The transport obeys the [io::Read] /
    [io::Write] contracts: a read returns at most the length of the slice it
    is given, a write reports at most the length of the slice it is given. *)
Module BufferOps.
Import Buffer.

Inductive step : Internals -> list byte -> list byte -> Internals -> Prop :=
| step_read_from : forall s data s' n,
    length data <= capacity s - end_ s ->
    read_from s (Ok data) = Some (s', Ok n) ->
    step s data [] s'
| step_read_from_err : forall s e s' r,
    read_from s (Err e) = Some (s', r) ->
    step s [] [] s'
| step_write_to : forall s n s',
    n <= end_ s - start s ->
    write_to s (Ok n) = Some (s', Ok n) ->
    step s [] (firstn n (pending s)) s'
| step_write_to_err : forall s e s' r,
    write_to s (Err e) = Some (s', r) ->
    step s [] [] s'
| step_read : forall s k s' out,
    read s k = Some (s', out) ->
    step s [] out s'
| step_write : forall s src s' n,
    write s src = Some (s', n) ->
    step s (firstn n src) [] s'.

(** Zero or more steps; the labels are concatenated in order. *)
Inductive steps : Internals -> list byte -> list byte -> Internals -> Prop :=
| steps_refl : forall s, steps s [] [] s
| steps_cons : forall s i o s1 i' o' s2,
    step s i o s1 -> steps s1 i' o' s2 -> steps s (i ++ i') (o ++ o') s2.

(** States reachable from a freshly constructed buffer. *)
Definition reachable (s : Internals) : Prop :=
  exists cfg s0 ins outs, build_from cfg = Some s0 /\ steps s0 ins outs s.

(** Cursor bounds [0 <= start <= end <= capacity]. *)
Definition bounds (s : Internals) : Prop :=
  start s <= end_ s <= capacity s.

(** The invariant of spec 3: bounds, and reset to 0/0 once fully drained. *)
Definition buffer_inv (s : Internals) : Prop :=
  bounds s /\ (start s = end_ s -> end_ s = 0).

End BufferOps.

(** ** src/lib.rs *)

Inductive Shutdown := Read | Write | Both.

Definition Shutdown_eqb (a b : Shutdown) : bool :=
  match a, b with
  | Read, Read | Write, Write | Both, Both => true
  | _, _ => false
  end.

(** The record-layer engine ([rustls::Connection]), an external library, as an
    interface over its abstract state [E].  [read_tls] reads once from the
    given [io::Read] into a destination of [read_tls_space] bytes (or refuses
    with an error) and absorbs what it got; [write_tls] writes its pending
    record bytes [write_tls_pending] to the given [io::Write] and drops the
    count accepted. *)
Record Connection (E : Type) := {
  wants_read : E -> bool;
  wants_write : E -> bool;
  is_handshaking : E -> bool;
  read_tls_space : E -> IoResult nat;
  read_tls_absorb : E -> list byte -> E;
  process_new_packets : E -> E * bool;
  reader_read : E -> nat -> E * IoResult nat;
  write_tls_pending : E -> list byte;
  write_tls_sent : E -> nat -> E;
  writer_flush : E -> E * IoResult unit;
  writer_write : E -> list byte -> E * IoResult nat;
  send_close_notify : E -> E
}.

(** The transport ([TcpStream]) over its abstract state [N]. *)
Record Stream (N : Type) := {
  stream_read : N -> nat -> N * IoResult (list byte);
  stream_write : N -> list byte -> N * IoResult nat;
  stream_shutdown : N -> Shutdown -> N * IoResult unit
}.

Arguments wants_read {E} c _.
Arguments wants_write {E} c _.
Arguments is_handshaking {E} c _.
Arguments read_tls_space {E} c _.
Arguments read_tls_absorb {E} c _ _.
Arguments process_new_packets {E} c _.
Arguments reader_read {E} c _ _.
Arguments write_tls_pending {E} c _.
Arguments write_tls_sent {E} c _ _.
Arguments writer_flush {E} c _.
Arguments writer_write {E} c _ _.
Arguments send_close_notify {E} c _.
Arguments stream_read {N} _ _ _.
Arguments stream_write {N} _ _ _.
Arguments stream_shutdown {N} _ _ _.

(** Observable events of one half-level operation. *)
Inductive EngCall :=
| CWantsRead | CReadTls | CProcessNewPackets | CReaderRead
| CWantsWrite | CWriteTls | CWriterFlush | CWriterWrite | CSendCloseNotify.

Inductive Event :=
| ELock                          (* connection.lock() *)
| EUnlock                        (* the guard is dropped *)
| EEng (c : EngCall)             (* a call into the engine *)
| EStreamRead                    (* a transport read *)
| EStreamWrite                   (* a transport write *)
| EStreamShutdown (how : Shutdown).

(** The world seen by one operation of a half: engine, transport, the half's
    own staging buffer, whether this thread holds the engine lock (a live
    [MutexGuard]), and the events so far. *)
Record World (E N : Type) := {
  eng : E; net : N; hbuf : Buffer.Internals; locked : bool; trace : list Event
}.
Arguments eng {E N} w.
Arguments net {E N} w.
Arguments hbuf {E N} w.
Arguments locked {E N} w.
Arguments trace {E N} w.

(** Outcome of a computation: a value, an error propagated by [?], or a halt
    (a panic, or the fuel bounding the [while] loops ran out). *)
Inductive Outcome (A : Type) :=
| Ret (a : A)
| Fail (e : ErrorKind)
| Halt.
Arguments Ret {A} a.
Arguments Fail {A} e.
Arguments Halt {A}.

Section Split.
Context {E N : Type} (C : Connection E) (T : Stream N).

Definition M (A : Type) : Type := World E N -> World E N * Outcome A.

Definition ret {A} (a : A) : M A := fun w => (w, Ret a).
Definition fail {A} (e : ErrorKind) : M A := fun w => (w, Fail e).
Definition halt {A} : M A := fun w => (w, Halt).
Definition bind {A B} (m : M A) (f : A -> M B) : M B :=
  fun w => match m w with
           | (w', Ret a) => f a w'
           | (w', Fail e) => (w', Fail e)
           | (w', Halt) => (w', Halt)
           end.

Local Notation "x <- m ;; k" := (bind m (fun x => k))
  (at level 61, m at next level, right associativity).

(** The [?] operator on an [io::Result]. *)
Definition lift {A} (r : IoResult A) : M A :=
  match r with Ok a => ret a | Err e => fail e end.

Definition set_world (e : E) (n : N) (b : Buffer.Internals) (l : bool)
  (tr : list Event) : World E N :=
  {| eng := e; net := n; hbuf := b; locked := l; trace := tr |}.

Definition emit (ev : Event) (w : World E N) : World E N :=
  set_world (eng w) (net w) (hbuf w) (locked w) (trace w ++ [ev]).

Definition lock : M unit := fun w =>
  let w1 := emit ELock w in
  (set_world (eng w1) (net w1) (hbuf w1) true (trace w1), Ret tt).

Definition unlock : M unit := fun w =>
  let w1 := emit EUnlock w in
  (set_world (eng w1) (net w1) (hbuf w1) false (trace w1), Ret tt).

(** Dropping the guard if it is still live. *)
Definition release (w : World E N) : World E N :=
  if locked w then fst (unlock w) else w.

(** A function owning the guard: it is dropped on every return. *)
Definition finally_release {A} (m : M A) : M A := fun w =>
  match m w with
  | (w', Halt) => (w', Halt)
  | (w', o) => (release w', o)
  end.

(** A function returning the guard on success: dropped on the error path. *)
Definition on_error_release {A} (m : M A) : M A := fun w =>
  match m w with
  | (w', Fail e) => (release w', Fail e)
  | (w', o) => (w', o)
  end.

(** Keeping an [io::Result] instead of propagating it ([let res = ...]). *)
Definition try_ {A} (m : M A) : M (IoResult A) := fun w =>
  match m w with
  | (w', Ret a) => (w', Ret (Ok a))
  | (w', Fail e) => (w', Ret (Err e))
  | (w', Halt) => (w', Halt)
  end.

(** Queries on the half's own staging buffer (no lock involved). *)
Definition buf_is_empty : M bool := fun w => (w, Ret (Buffer.is_empty (hbuf w))).
Definition buf_is_full : M bool := fun w => (w, Ret (Buffer.is_full (hbuf w))).

(** Engine calls. *)
Definition c_wants_read : M bool := fun w =>
  (emit (EEng CWantsRead) w, Ret (wants_read C (eng w))).

Definition c_wants_write : M bool := fun w =>
  (emit (EEng CWantsWrite) w, Ret (wants_write C (eng w))).

(** [connection.read_tls(&mut self.buf)]: one [<ReadBuffer as io::Read>::read]. *)
Definition c_read_tls : M nat := fun w =>
  let w1 := emit (EEng CReadTls) w in
  match read_tls_space C (eng w1) with
  | Err e => (w1, Fail e)
  | Ok k =>
      match Buffer.read (hbuf w1) k with
      | None => (w1, Halt)
      | Some (b', bytes) =>
          (set_world (read_tls_absorb C (eng w1) bytes) (net w1) b'
             (locked w1) (trace w1), Ret (length bytes))
      end
  end.

Definition c_process_new_packets : M bool := fun w =>
  let w1 := emit (EEng CProcessNewPackets) w in
  let (e', ok) := process_new_packets C (eng w1) in
  (set_world e' (net w1) (hbuf w1) (locked w1) (trace w1), Ret ok).

(** [connection.reader().read(buf)] for a caller buffer of length [len]. *)
Definition c_reader_read (len : nat) : M (IoResult nat) := fun w =>
  let w1 := emit (EEng CReaderRead) w in
  let (e', r) := reader_read C (eng w1) len in
  (set_world e' (net w1) (hbuf w1) (locked w1) (trace w1), Ret r).

(** [connection.write_tls(buf)]: one [<WriteBuffer as io::Write>::write]. *)
Definition c_write_tls : M nat := fun w =>
  let w1 := emit (EEng CWriteTls) w in
  match Buffer.write (hbuf w1) (write_tls_pending C (eng w1)) with
  | None => (w1, Halt)
  | Some (b', n) =>
      (set_world (write_tls_sent C (eng w1) n) (net w1) b' (locked w1) (trace w1),
       Ret n)
  end.

Definition c_writer_flush : M (IoResult unit) := fun w =>
  let w1 := emit (EEng CWriterFlush) w in
  let (e', r) := writer_flush C (eng w1) in
  (set_world e' (net w1) (hbuf w1) (locked w1) (trace w1), Ret r).

Definition c_writer_write (src : list byte) : M (IoResult nat) := fun w =>
  let w1 := emit (EEng CWriterWrite) w in
  let (e', r) := writer_write C (eng w1) src in
  (set_world e' (net w1) (hbuf w1) (locked w1) (trace w1), Ret r).

Definition c_send_close_notify : M unit := fun w =>
  let w1 := emit (EEng CSendCloseNotify) w in
  (set_world (send_close_notify C (eng w1)) (net w1) (hbuf w1) (locked w1)
     (trace w1), Ret tt).

(** Transport calls through the staging buffer. *)

(** [self.buf.read_from(&mut &self.shared.stream)?]. *)
Definition s_read_from : M nat := fun w =>
  match Buffer.slice (Buffer.buf (hbuf w)) (Buffer.end_ (hbuf w))
          (length (Buffer.buf (hbuf w))) with
  | None => (w, Halt)
  | Some dst =>
      let w1 := emit EStreamRead w in
      let (n', r) := stream_read T (net w1) (length dst) in
      match Buffer.read_from (hbuf w1) r with
      | None => (w1, Halt)
      | Some (b', Ok k) => (set_world (eng w1) n' b' (locked w1) (trace w1), Ret k)
      | Some (b', Err e) => (set_world (eng w1) n' b' (locked w1) (trace w1), Fail e)
      end
  end.

(** [buf.write_to(&mut &shared.stream)?]. *)
Definition s_write_to : M nat := fun w =>
  match Buffer.slice (Buffer.buf (hbuf w)) (Buffer.start (hbuf w))
          (Buffer.end_ (hbuf w)) with
  | None => (w, Halt)
  | Some src =>
      let w1 := emit EStreamWrite w in
      let (n', r) := stream_write T (net w1) src in
      match Buffer.write_to (hbuf w1) r with
      | None => (w1, Halt)
      | Some (b', Ok k) => (set_world (eng w1) n' b' (locked w1) (trace w1), Ret k)
      | Some (b', Err e) => (set_world (eng w1) n' b' (locked w1) (trace w1), Fail e)
      end
  end.

(** [self.shared.stream.shutdown(how)] (its [io::Result] as a value). *)
Definition s_shutdown (how : Shutdown) : M (IoResult unit) := fun w =>
  let w1 := emit (EStreamShutdown how) w in
  let (n', r) := stream_shutdown T (net w1) how in
  (set_world (eng w1) n' (hbuf w1) (locked w1) (trace w1), Ret r).

(** *** ReadHalf *)

(** The [while connection.wants_read()] loop of [<ReadHalf as io::Read>::read];
    the lock is held on entry and on normal exit.  ([debug_assert_ne!] is
    compiled out in release builds.) *)
Fixpoint read_loop (fuel : nat) : M unit :=
  match fuel with
  | 0 => halt
  | S fuel' =>
      wr <- c_wants_read ;;
      if negb wr then ret tt else
      brk <- (empty <- buf_is_empty ;;
              if empty then
                _ <- unlock ;;
                bytes_read <- s_read_from ;;
                _ <- lock ;;
                ret (bytes_read =? 0)
              else ret false) ;;
      if brk then ret tt else
      _ <- c_read_tls ;;
      ok <- c_process_new_packets ;;
      _ <- (if ok then ret tt else fail InvalidData) ;;
      read_loop fuel'
  end.

(** The final [match connection.reader().read(buf)]. *)
Definition finish_read (r : IoResult nat) : IoResult nat :=
  match r with
  | Ok 0 => Err UnexpectedEof
  | Ok n => Ok n
  | Err ConnectionAborted => Ok 0
  | Err e => Err e
  end.

(** [<ReadHalf as io::Read>::read] into a caller buffer of length [len]. *)
Definition read (fuel len : nat) : M nat :=
  finally_release (
    _ <- lock ;;
    _ <- read_loop fuel ;;
    r <- c_reader_read len ;;
    lift (finish_read r)).

(** [ReadHalf::shutdown(how)]. *)
Definition read_half_shutdown (how : Shutdown) : M unit :=
  r <- s_shutdown how ;; lift r.

(** *** WriteHalf *)

(** The inner [while buf.is_full()] loop of [wants_write_loop]. *)
Fixpoint full_loop (fuel : nat) : M unit :=
  match fuel with
  | 0 => halt
  | S fuel' =>
      full <- buf_is_full ;;
      if negb full then ret tt else
      _ <- unlock ;;
      _ <- s_write_to ;;
      _ <- lock ;;
      full_loop fuel'
  end.

(** The outer [while connection.wants_write()] loop. *)
Fixpoint wants_write_body (fuel : nat) : M unit :=
  match fuel with
  | 0 => halt
  | S fuel' =>
      ww <- c_wants_write ;;
      if negb ww then ret tt else
      _ <- full_loop fuel ;;
      _ <- c_write_tls ;;
      wants_write_body fuel'
  end.

(** [wants_write_loop]: takes the guard and returns it ([Ok(connection)]). *)
Definition wants_write_loop (fuel : nat) : M unit :=
  on_error_release (wants_write_body fuel).

(** The final [while !buf.is_empty()] loop of [flush]. *)
Fixpoint drain_loop (fuel : nat) : M unit :=
  match fuel with
  | 0 => halt
  | S fuel' =>
      empty <- buf_is_empty ;;
      if empty then ret tt else
      _ <- s_write_to ;;
      drain_loop fuel'
  end.

(** The free function [flush(buf, shared, connection)]: it owns the guard. *)
Definition flush (fuel : nat) : M unit :=
  finally_release (
    r <- c_writer_flush ;;
    _ <- lift r ;;
    _ <- wants_write_loop fuel ;;
    _ <- unlock ;;
    drain_loop fuel).

(** [<WriteHalf as io::Write>::write(src)]. *)
Definition write (fuel : nat) (src : list byte) : M nat :=
  finally_release (
    _ <- lock ;;
    _ <- wants_write_loop fuel ;;
    r <- c_writer_write src ;;
    lift r).

(** [<WriteHalf as io::Write>::flush]. *)
Definition write_half_flush (fuel : nat) : M unit :=
  _ <- lock ;; flush fuel.

(** [WriteHalf::shutdown(how)]. *)
Definition write_half_shutdown (fuel : nat) (how : Shutdown) : M unit :=
  if Shutdown_eqb how Read then
    r <- s_shutdown Read ;; lift r
  else
    _ <- lock ;;
    _ <- c_send_close_notify ;;
    res <- try_ (flush fuel) ;;
    r <- s_shutdown how ;;
    _ <- lift r ;;
    lift res.

(** [split]: [None] is a panic ([assert!(!connection.is_handshaking())] or the
    assertion of [Internals::build_from]). *)
Definition split (conn : E) (read_buf_cfg write_buf_cfg : Buffer.BufCfg)
  : option (Buffer.Internals * Buffer.Internals) :=
  if is_handshaking C conn then None
  else match Buffer.build_from read_buf_cfg with
       | None => None
       | Some rb =>
           match Buffer.build_from write_buf_cfg with
           | None => None
           | Some wb => Some (rb, wb)
           end
       end.

(** The public operations of the two halves. *)
Inductive Op :=
| OpRead (len : nat)
| OpReadShutdown (how : Shutdown)
| OpWrite (src : list byte)
| OpFlush
| OpWriteShutdown (how : Shutdown).

(** The events of running an operation from world [w]. *)
Definition op_trace (fuel : nat) (o : Op) (w : World E N) : list Event :=
  match o with
  | OpRead len => trace (fst (read fuel len w))
  | OpReadShutdown how => trace (fst (read_half_shutdown how w))
  | OpWrite src => trace (fst (write fuel src w))
  | OpFlush => trace (fst (write_half_flush fuel w))
  | OpWriteShutdown how => trace (fst (write_half_shutdown fuel how w))
  end.

(** An operation's final world and outcome, with the returned value dropped. *)
Definition forget {A} (p : World E N * Outcome A) : World E N * Outcome unit :=
  (fst p, match snd p with Ret _ => Ret tt | Fail e => Fail e | Halt => Halt end).

Definition op_run (fuel : nat) (o : Op) (w : World E N) : World E N * Outcome unit :=
  match o with
  | OpRead len => forget (read fuel len w)
  | OpReadShutdown how => forget (read_half_shutdown how w)
  | OpWrite src => forget (write fuel src w)
  | OpFlush => forget (write_half_flush fuel w)
  | OpWriteShutdown how => forget (write_half_shutdown fuel how w)
  end.

End Split.

(** ** The lock discipline over an event trace *)

Definition is_stream (ev : Event) : bool :=
  match ev with
  | EStreamRead | EStreamWrite | EStreamShutdown _ => true
  | _ => false
  end.

Definition is_eng (ev : Event) : bool :=
  match ev with EEng _ => true | _ => false end.

(** Whether the lock is held after a trace prefix. *)
Definition held_step (h : bool) (ev : Event) : bool :=
  match ev with ELock => true | EUnlock => false | _ => h end.

Definition held_from (h : bool) (tr : list Event) : bool := fold_left held_step tr h.

Definition held_after (tr : list Event) : bool := held_from false tr.

(** Executable checker: locking only when not held, unlocking only when held,
    engine calls only under the lock, transport calls only without it. *)
Fixpoint lock_ok (h : bool) (tr : list Event) : bool :=
  match tr with
  | [] => true
  | ev :: tr' =>
      match ev with
      | ELock => negb h && lock_ok true tr'
      | EUnlock => h && lock_ok false tr'
      | EEng _ => h && lock_ok h tr'
      | EStreamRead | EStreamWrite | EStreamShutdown _ => negb h && lock_ok h tr'
      end
  end.

(** The discipline of spec section 5: no transport call while the lock is
    held; after a transport call the next event is either another transport
    call or the lock being taken again; engine calls happen under the lock. *)
Definition lock_discipline (tr : list Event) : Prop :=
  (forall p ev q, tr = p ++ ev :: q -> is_stream ev = true -> held_after p = false) /\
  (forall p ev ev' q, tr = p ++ ev :: ev' :: q -> is_stream ev = true ->
     ev' = ELock \/ is_stream ev' = true) /\
  (forall p ev q, tr = p ++ ev :: q -> is_eng ev = true -> held_after p = true).

(** Invariant of a world during an operation: the trace so far obeys the
    discipline and [locked] is the lock state the trace ends in. *)
Definition Inv {E N} (w : World E N) : Prop :=
  lock_ok false (trace w) = true /\ held_after (trace w) = locked w.

Definition St {E N} (b : bool) (w : World E N) : Prop := Inv w /\ locked w = b.

(** Partial-correctness triples over [M]: [Q] after a value, [R] after a
    propagated error, [Inv] after a halt. *)
Definition triple {E N A} (P : World E N -> Prop) (m : M A)
  (Q : A -> World E N -> Prop) (R : World E N -> Prop) : Prop :=
  forall w, P w ->
    match m w with
    | (w', Ret a) => Q a w'
    | (w', Fail _) => R w'
    | (w', Halt) => Inv w'
    end.

(** A concrete engine and transport: the engine's plaintext flush fails with
    [Other]; the transport's shutdown fails with [NotConnected]. *)
Definition cx_conn : Connection unit := {|
  wants_read := fun _ => false;
  wants_write := fun _ => false;
  is_handshaking := fun _ => false;
  read_tls_space := fun _ => Ok 0;
  read_tls_absorb := fun e _ => e;
  process_new_packets := fun e => (e, true);
  reader_read := fun e _ => (e, Ok 0);
  write_tls_pending := fun _ => [];
  write_tls_sent := fun e _ => e;
  writer_flush := fun e => (e, Err Other);
  writer_write := fun e _ => (e, Ok 0);
  send_close_notify := fun e => e
|}.

Definition cx_stream : Stream unit := {|
  stream_read := fun n _ => (n, Ok []);
  stream_write := fun n _ => (n, Ok 0);
  stream_shutdown := fun n _ => (n, Err NotConnected)
|}.

Definition cx_world : World unit unit :=
  set_world tt tt {| Buffer.buf := [x00]; Buffer.start := 0; Buffer.end_ := 0 |}
    false [].

(** The transport honours the [io::Read] contract (a read returns at most the
    length of the slice it is given) and the [io::Write] contract (a write
    reports at most the length of the slice it is given). *)
Definition read_contract {N} (T : Stream N) : Prop :=
  forall n k n' d, stream_read T n k = (n', Ok d) -> length d <= k.

Definition write_contract {N} (T : Stream N) : Prop :=
  forall n src n' k, stream_write T n src = (n', Ok k) -> k <= length src.

(** The staging buffer of a world satisfies the buffer invariant. *)
Definition BufInv {E N} (w : World E N) : Prop := BufferOps.buffer_inv (hbuf w).

(** A computation keeps a world predicate, whatever its outcome. *)
Definition preserves {E N A} (I : World E N -> Prop) (m : @M E N A) : Prop :=
  forall w, I w -> I (fst (m w)).

(** An engine that always wants to read, rejects the records it gets and
    reports a clean close on the plaintext side; its flush succeeds and it has
    nothing to write. *)
Definition rd_conn : Connection unit := {|
  wants_read := fun _ => true;
  wants_write := fun _ => false;
  is_handshaking := fun _ => false;
  read_tls_space := fun _ => Ok 4;
  read_tls_absorb := fun e _ => e;
  process_new_packets := fun e => (e, false);
  reader_read := fun e _ => (e, Err ConnectionAborted);
  write_tls_pending := fun _ => [];
  write_tls_sent := fun e _ => e;
  writer_flush := fun e => (e, Ok tt);
  writer_write := fun e src => (e, Ok (length src));
  send_close_notify := fun e => e
|}.

(** A transport whose reads and writes fail with [WouldBlock]. *)
Definition err_stream : Stream unit := {|
  stream_read := fun n _ => (n, Err WouldBlock);
  stream_write := fun n _ => (n, Err WouldBlock);
  stream_shutdown := fun n _ => (n, Ok tt)
|}.


(** A world whose staging buffer holds one pending byte. *)
Definition one_world : World unit unit :=
  set_world tt tt {| Buffer.buf := [x01; x00]; Buffer.start := 0; Buffer.end_ := 1 |}
    false [].

(** * Proofs *)

Module BufferProofs.
Import Buffer BufferOps.

Lemma length_overwrite v off d : length (overwrite v off d) = length v.
Proof.
  revert off d; induction v as [|x v IH]; intros [|o] [|y d]; simpl; auto.
Qed.

Lemma overwrite_spec v off d :
  off <= length v ->
  overwrite v off d =
  firstn off v ++ firstn (length v - off) d ++ skipn (off + length d) v.
Proof.
  revert off d; induction v as [|x v IH]; intros [|o] [|y d] H; simpl in *;
    try lia; try (rewrite IH by lia); simpl; rewrite ?Nat.sub_0_r, ?skipn_nil;
    reflexivity.
Qed.

Lemma pending_length s : bounds s -> length (pending s) = end_ s - start s.
Proof.
  unfold bounds, pending, capacity; intros H.
  rewrite length_firstn, length_skipn; lia.
Qed.

Lemma pending_as_skipn s : pending s = skipn (start s) (firstn (end_ s) (buf s)).
Proof.
  unfold pending.
  destruct (Nat.le_gt_cases (start s) (end_ s)) as [H|H].
  - rewrite firstn_skipn_comm; f_equal; f_equal; lia.
  - replace (end_ s - start s) with 0 by lia; simpl.
    symmetry; apply skipn_all2; rewrite length_firstn; lia.
Qed.

Lemma slice_tail s :
  bounds s ->
  slice (buf s) (end_ s) (length (buf s)) =
  Some (firstn (length (buf s) - end_ s) (skipn (end_ s) (buf s))).
Proof.
  unfold bounds, capacity, slice; intros H.
  replace ((end_ s <=? length (buf s)) && (length (buf s) <=? length (buf s)))
    with true by (symmetry; apply andb_true_iff; split; apply Nat.leb_le; lia).
  reflexivity.
Qed.

Lemma slice_pending s :
  bounds s -> slice (buf s) (start s) (end_ s) = Some (pending s).
Proof.
  unfold bounds, capacity, slice, pending; intros H.
  replace ((start s <=? end_ s) && (end_ s <=? length (buf s)))
    with true by (symmetry; apply andb_true_iff; split; apply Nat.leb_le; lia).
  reflexivity.
Qed.

(** Appending [d] at [end] (when it fits) extends the pending region by [d]. *)
Lemma pending_append s d :
  bounds s -> length d <= capacity s - end_ s ->
  pending {| buf := overwrite (buf s) (end_ s) d; start := start s;
             end_ := end_ s + length d |} = pending s ++ d.
Proof.
  unfold bounds, capacity; intros Hb Hd.
  rewrite !pending_as_skipn; simpl.
  rewrite overwrite_spec by lia.
  rewrite (firstn_all2 (n := length (buf s) - end_ s)) by lia.
  rewrite firstn_app, length_firstn.
  replace (Nat.min (end_ s) (length (buf s))) with (end_ s) by lia.
  rewrite (firstn_all2 (n := end_ s + length d)) by (rewrite length_firstn; lia).
  replace (end_ s + length d - end_ s) with (length d) by lia.
  rewrite firstn_app, firstn_all, Nat.sub_diag; simpl; rewrite app_nil_r.
  rewrite skipn_app, length_firstn.
  replace (start s - Nat.min (end_ s) (length (buf s))) with 0 by lia.
  reflexivity.
Qed.

(** Advancing [start] by at most the pending length drops that many bytes. *)
Lemma pending_advance s n :
  bounds s -> n <= end_ s - start s ->
  pending (advance_start s n) = skipn n (pending s).
Proof.
  intros Hb Hn; unfold advance_start.
  destruct (start s + n =? end_ s) eqn:Heq.
  - apply Nat.eqb_eq in Heq.
    unfold pending at 1; simpl.
    symmetry; apply skipn_all2; rewrite pending_length by assumption; lia.
  - apply Nat.eqb_neq in Heq.
    unfold pending; simpl.
    rewrite skipn_firstn_comm, skipn_skipn.
    f_equal; [lia | f_equal; lia].
Qed.

Lemma advance_inv s n :
  buffer_inv s -> n <= end_ s - start s ->
  buffer_inv (advance_start s n) /\ buf (advance_start s n) = buf s.
Proof.
  unfold buffer_inv, bounds, capacity, advance_start; intros [Hb Hz] Hn.
  destruct (start s + n =? end_ s) eqn:Heq; simpl.
  - repeat split; auto; lia.
  - apply Nat.eqb_neq in Heq; repeat split; try lia.
Qed.

(** One step preserves the invariant and is first-in first-out. *)
Lemma step_inv s i o s' :
  buffer_inv s -> step s i o s' ->
  buffer_inv s' /\ capacity s' = capacity s /\ o ++ pending s' = pending s ++ i.
Proof.
  intros Hi Hs; pose proof Hi as [Hb Hz].
  destruct Hs as [s data s' n Hd Hr | s e s' r Hr | s n s' Hn Hw
                 | s e s' r Hw | s k s' out Hr | s src s' n Hw].
  - unfold read_from in Hr; rewrite slice_tail in Hr by assumption.
    injection Hr as <- _.
    split; [|split].
    + unfold buffer_inv, bounds, capacity in *; simpl.
      rewrite length_overwrite; split; [lia|].
      intros Heq; assert (length data = 0) by lia.
      assert (start s = end_ s) by lia.
      specialize (Hz H0); lia.
    + unfold capacity; simpl; apply length_overwrite.
    + simpl; rewrite pending_append by assumption; reflexivity.
  - unfold read_from in Hr; rewrite slice_tail in Hr by assumption.
    injection Hr as <- _.
    split; [assumption | split; [reflexivity | rewrite app_nil_r; reflexivity]].
  - unfold write_to in Hw; rewrite slice_pending in Hw by assumption.
    injection Hw as <-.
    destruct (advance_inv s n Hi Hn) as [Hi' Hbuf].
    split; [assumption | split].
    + unfold capacity; rewrite Hbuf; reflexivity.
    + rewrite pending_advance by assumption.
      rewrite firstn_skipn, app_nil_r; reflexivity.
  - unfold write_to in Hw; rewrite slice_pending in Hw by assumption.
    injection Hw as <- _.
    split; [assumption | split; [reflexivity | rewrite app_nil_r; reflexivity]].
  - unfold read in Hr; rewrite slice_pending in Hr by assumption.
    injection Hr as <- <-.
    assert (Hn : Nat.min (length (pending s)) k <= end_ s - start s)
      by (rewrite pending_length by assumption; lia).
    destruct (advance_inv s _ Hi Hn) as [Hi' Hbuf].
    split; [assumption | split].
    + unfold capacity; rewrite Hbuf; reflexivity.
    + rewrite pending_advance by assumption.
      rewrite firstn_skipn, app_nil_r; reflexivity.
  - unfold write in Hw; rewrite slice_tail in Hw by assumption.
    injection Hw as <- <-.
    rewrite length_firstn, length_skipn.
    set (len := Nat.min (Nat.min (length (buf s) - end_ s)
                          (length (buf s) - end_ s)) (length src)).
    assert (Hlen : length (firstn len src) = len)
      by (rewrite length_firstn; unfold len; lia).
    assert (Hfit : length (firstn len src) <= capacity s - end_ s)
      by (rewrite Hlen; unfold len, capacity; lia).
    split; [|split].
    + unfold buffer_inv, bounds, capacity in *; simpl.
      rewrite length_overwrite; split; [lia|].
      intros Heq; assert (len = 0) by lia.
      assert (start s = end_ s) by lia.
      specialize (Hz H0); lia.
    + unfold capacity; simpl; apply length_overwrite.
    + pose proof (pending_append s (firstn len src) Hb Hfit) as Hp.
      rewrite Hlen in Hp; simpl; rewrite Hp; reflexivity.
Qed.

Lemma steps_inv s i o s' :
  buffer_inv s -> steps s i o s' ->
  buffer_inv s' /\ o ++ pending s' = pending s ++ i.
Proof.
  intros Hi Hs; induction Hs as [s | s i o s1 i' o' s2 Hst Hss IH].
  - split; [assumption | rewrite app_nil_r; reflexivity].
  - destruct (step_inv s i o s1 Hi Hst) as [Hi1 [_ Hf1]].
    destruct (IH Hi1) as [Hi2 Hf2].
    split; [assumption|].
    rewrite <- app_assoc, Hf2, app_assoc, Hf1, app_assoc; reflexivity.
Qed.

Lemma build_from_spec cfg s :
  build_from cfg = Some s ->
  buf s = initial_data cfg ++ repeat x00 (min_capacity cfg - length (initial_data cfg)) /\
  start s = 0 /\ end_ s = length (initial_data cfg) /\ buffer_inv s.
Proof.
  unfold build_from; intros H.
  destruct (length (initial_data cfg) <? min_capacity cfg) eqn:Hlt.
  - apply Nat.ltb_lt in Hlt.
    destruct (length (resize (initial_data cfg) (min_capacity cfg)) =? 0);
      [discriminate|].
    injection H as <-; simpl.
    unfold resize; rewrite firstn_all2 by lia.
    unfold buffer_inv, bounds, capacity; simpl.
    rewrite ?length_app, ?length_firstn, ?repeat_length.
    repeat split; lia.
  - apply Nat.ltb_ge in Hlt.
    destruct (length (initial_data cfg) =? 0) eqn:Hz; [discriminate|].
    injection H as <-; simpl.
    replace (min_capacity cfg - length (initial_data cfg)) with 0 by lia.
    unfold buffer_inv, bounds, capacity; simpl.
    rewrite app_nil_r; repeat split; lia.
Qed.

Lemma build_from_none cfg :
  build_from cfg = None <-> initial_data cfg = [] /\ min_capacity cfg = 0.
Proof.
  unfold build_from; destruct cfg as [d m]; simpl.
  destruct (length d <? m) eqn:Hlt.
  - apply Nat.ltb_lt in Hlt.
    unfold resize; rewrite length_app, length_firstn, repeat_length.
    destruct (Nat.min m (length d) + (m - length d) =? 0) eqn:Hz.
    + apply Nat.eqb_eq in Hz; lia.
    + split; [discriminate | intros [_ ->]; lia].
  - destruct (length d =? 0) eqn:Hz.
    + apply Nat.eqb_eq in Hz; apply Nat.ltb_ge in Hlt.
      destruct d; [|discriminate]; simpl in *; split; [intros _; split; [reflexivity | lia] | reflexivity].
    + apply Nat.eqb_neq in Hz.
      split; [discriminate | intros [-> _]; simpl in Hz; lia].
Qed.

Lemma buffer_inv_reachable s : reachable s -> buffer_inv s.
Proof.
  intros (cfg & s0 & ins & outs & Hb & Hs).
  destruct (build_from_spec cfg s0 Hb) as (_ & _ & _ & Hi0).
  exact (proj1 (steps_inv s0 ins outs s Hi0 Hs)).
Qed.

(** C1: In every state reachable from a fresh buffer through [read_from],
    [write_to], append and drain calls, [0 <= start <= end <= capacity];
    [start = end] implies [end = 0]; hence [is_empty] holds exactly when
    nothing is pending and [is_full] exactly when no space is free; and when
    the buffer is empty, an append fills it from offset 0 with the whole
    capacity available. *)
Theorem buffer_invariant (s : Internals) :
  reachable s ->
  start s <= end_ s <= capacity s /\
  (start s = end_ s -> end_ s = 0) /\
  (is_empty s = true <-> pending s = []) /\
  (is_full s = true <-> capacity s - end_ s = 0) /\
  (is_empty s = true -> forall src,
     let len := Nat.min (capacity s) (length src) in
     exists s', write s src = Some (s', len) /\ start s' = 0 /\ end_ s' = len /\
                firstn len (buf s') = firstn len src).
Proof.
  intros Hr; pose proof (buffer_inv_reachable s Hr) as Hi.
  pose proof Hi as [Hb Hz]; unfold bounds in Hb.
  split; [exact Hb|]. split; [exact Hz|].
  split; [|split].
  - unfold is_empty; rewrite Nat.eqb_eq.
    rewrite <- length_zero_iff_nil, pending_length by exact Hb.
    split; [lia|]. intros H; apply Hz; lia.
  - unfold is_full, capacity in *; rewrite Nat.eqb_eq; lia.
  - unfold is_empty; rewrite Nat.eqb_eq; intros He src; cbv zeta.
    set (len := Nat.min (capacity s) (length src)).
    unfold write; rewrite slice_tail by exact Hb.
    rewrite length_firstn, length_skipn, He.
    replace (Nat.min (Nat.min (length (buf s) - 0) (length (buf s) - 0)) (length src))
      with len by (unfold len, capacity; lia).
    eexists; split; [reflexivity|]; simpl.
    split; [lia|]. split; [reflexivity|].
    rewrite overwrite_spec by lia; simpl.
    assert (Hl : len <= length src /\ len <= length (buf s))
      by (unfold len, capacity; lia).
    rewrite (firstn_all2 (n := length (buf s) - 0)) by (rewrite length_firstn; lia).
    rewrite firstn_app, length_firstn.
    replace (len - Nat.min len (length src)) with 0 by lia.
    simpl; rewrite app_nil_r, firstn_firstn, Nat.min_id; reflexivity.
Qed.

Lemma buffer_invariant_witness :
  let s1 := {| buf := [x01; x02; x00]; start := 0; end_ := 2 |} in
  reachable s1 /\ start s1 <= end_ s1 <= capacity s1.
Proof.
  cbv zeta.
  assert (Hr : reachable {| buf := [x01; x02; x00]; start := 0; end_ := 2 |}).
  { exists (with_capacity 3), {| buf := [x00; x00; x00]; start := 0; end_ := 0 |},
      [x01; x02], [].
    split; [reflexivity|].
    apply (steps_cons _ [x01; x02] []
             {| buf := [x01; x02; x00]; start := 0; end_ := 2 |} [] []);
      [apply (step_write _ [x01; x02] _ 2); reflexivity | apply steps_refl]. }
  split; [exact Hr|].
  exact (proj1 (buffer_invariant _ Hr)).
Defined.

(** C6: A constructed buffer has capacity [max(seed length, requested minimum)]:
    [with_capacity n] yields capacity [n] and [with_data d n] capacity
    [max(length d, n)]; construction fails only when that maximum is 0. *)
Theorem build_from_capacity :
  (forall cfg, match build_from cfg with
               | Some s => capacity s = Nat.max (length (initial_data cfg)) (min_capacity cfg)
               | None => Nat.max (length (initial_data cfg)) (min_capacity cfg) = 0
               end) /\
  (forall n, match build_from (with_capacity n) with
             | Some s => capacity s = n
             | None => n = 0
             end) /\
  (forall d n, match build_from (with_data d n) with
               | Some s => capacity s = Nat.max (length d) n
               | None => Nat.max (length d) n = 0
               end).
Proof.
  assert (H : forall cfg, match build_from cfg with
               | Some s => capacity s = Nat.max (length (initial_data cfg)) (min_capacity cfg)
               | None => Nat.max (length (initial_data cfg)) (min_capacity cfg) = 0
               end).
  { intros cfg; destruct (build_from cfg) as [s|] eqn:Hb.
    - destruct (build_from_spec cfg s Hb) as (Hbuf & _).
      unfold capacity; rewrite Hbuf, length_app, repeat_length; lia.
    - apply build_from_none in Hb as [Hd Hm]; rewrite Hd, Hm; reflexivity. }
  split; [exact H|split].
  - intros n; exact (H (with_capacity n)).
  - intros d n; exact (H (with_data d n)).
Qed.

(** C7: On a buffer with [start <= end <= capacity] (every reachable state), the
    raw append writes exactly [min(free, input length)] bytes at [end] and
    returns that count, and the raw drain copies exactly
    [min(pending, destination length)] bytes from the front of
    [buf[start..end]] and returns them; neither panics nor changes the
    capacity. *)
Theorem raw_append_drain (s : Internals) :
  bounds s ->
  (forall src,
     let len := Nat.min (capacity s - end_ s) (length src) in
     write s src =
       Some ({| buf := firstn (end_ s) (buf s) ++ firstn len src ++
                       skipn (end_ s + len) (buf s);
                start := start s; end_ := end_ s + len |}, len) /\
     length (firstn (end_ s) (buf s) ++ firstn len src ++
             skipn (end_ s + len) (buf s)) = capacity s) /\
  (forall k,
     let len := Nat.min (end_ s - start s) k in
     read s k = Some (advance_start s len, firstn len (pending s)) /\
     length (firstn len (pending s)) = len /\
     capacity (advance_start s len) = capacity s).
Proof.
  intros Hb; pose proof Hb as Hb'; unfold bounds, capacity in Hb'.
  split.
  - intros src; cbv zeta.
    unfold write; rewrite slice_tail by exact Hb.
    rewrite length_firstn, length_skipn, Nat.min_id.
    rewrite overwrite_spec by lia.
    rewrite length_firstn.
    rewrite (firstn_all2 (n := length (buf s) - end_ s))
      by (rewrite length_firstn; lia).
    replace (end_ s + Nat.min (Nat.min (length (buf s) - end_ s) (length src))
                                (length src))
      with (end_ s + Nat.min (capacity s - end_ s) (length src))
      by (unfold capacity; lia).
    replace (Nat.min (length (buf s) - end_ s) (length src))
      with (Nat.min (capacity s - end_ s) (length src)) by reflexivity.
    split; [reflexivity|].
    unfold capacity; rewrite !length_app, !length_firstn, length_skipn; lia.
  - intros k; cbv zeta.
    unfold read; rewrite slice_pending by exact Hb.
    rewrite pending_length by exact Hb.
    split; [reflexivity|split].
    + rewrite length_firstn, pending_length by exact Hb; lia.
    + unfold advance_start, capacity.
      destruct (_ =? _); reflexivity.
Qed.

Lemma raw_append_drain_witness :
  let s := {| buf := [x01; x02; x00; x00]; start := 1; end_ := 2 |} in
  bounds s /\
  write s [x07; x08; x09] =
    Some ({| buf := [x01; x02; x07; x08]; start := 1; end_ := 4 |}, 2) /\
  read s 5 = Some ({| buf := [x01; x02; x00; x00]; start := 0; end_ := 0 |}, [x02]).
Proof.
  cbv zeta.
  assert (Hb : bounds {| buf := [x01; x02; x00; x00]; start := 1; end_ := 2 |})
    by (unfold bounds, capacity; simpl; lia).
  split; [exact Hb | split].
  - exact (proj1 (proj1 (raw_append_drain _ Hb) [x07; x08; x09])).
  - exact (proj1 (proj2 (raw_append_drain _ Hb) 5)).
Defined.

(** C9: A buffer built from seed bytes starts with [start = 0] and
    [end = seed length], its pending region is exactly the seed, the zero
    padding fills the free region [buf[end..]], and along any later sequence
    of calls the bytes taken out, followed by what is still pending, are the
    seed followed by the bytes put in: the seed comes out first. *)
Theorem build_from_seed_first (cfg : BufCfg) (s : Internals) :
  build_from cfg = Some s ->
  start s = 0 /\ end_ s = length (initial_data cfg) /\
  pending s = initial_data cfg /\
  skipn (end_ s) (buf s) = repeat x00 (capacity s - end_ s) /\
  (forall ins outs s', steps s ins outs s' ->
     outs ++ pending s' = initial_data cfg ++ ins).
Proof.
  intros Hb; destruct (build_from_spec cfg s Hb) as (Hbuf & Hst & Hen & Hi).
  assert (Hp : pending s = initial_data cfg).
  { unfold pending; rewrite Hst, Hen, Hbuf, Nat.sub_0_r; simpl.
    rewrite firstn_app, firstn_all, Nat.sub_diag; simpl; apply app_nil_r. }
  split; [exact Hst|]. split; [exact Hen|]. split; [exact Hp|]. split.
  - unfold capacity; rewrite Hen, Hbuf, skipn_app, skipn_all, Nat.sub_diag.
    rewrite length_app, repeat_length; simpl.
    f_equal; lia.
  - intros ins outs s' Hs.
    rewrite <- Hp; exact (proj2 (steps_inv s ins outs s' Hi Hs)).
Qed.

Lemma build_from_seed_first_witness :
  build_from (with_data [x01; x02] 4) =
    Some {| buf := [x01; x02; x00; x00]; start := 0; end_ := 2 |} /\
  pending {| buf := [x01; x02; x00; x00]; start := 0; end_ := 2 |} = [x01; x02].
Proof.
  split; [reflexivity|].
  exact (proj1 (proj2 (proj2 (build_from_seed_first (with_data [x01; x02] 4) _
                                  eq_refl)))).
Defined.

(** C10: The write buffer's [io::Write::flush] fails with [InvalidInput] on every
    state, and leaves the state unchanged. *)
Theorem write_buffer_flush_fails (s : Internals) :
  flush s = (s, Err InvalidInput).
Proof. reflexivity. Qed.

End BufferProofs.

Module SplitProofs.

(** *** The trace checker *)

Lemma lock_ok_app h p q :
  lock_ok h (p ++ q) = lock_ok h p && lock_ok (held_from h p) q.
Proof.
  revert h; induction p as [|ev p IH]; intros h; [reflexivity|].
  destruct ev; simpl; rewrite IH; unfold held_from; simpl;
    destruct h; reflexivity.
Qed.

Lemma held_after_snoc tr ev :
  held_after (tr ++ [ev]) = held_step (held_after tr) ev.
Proof. unfold held_after, held_from; rewrite fold_left_app; reflexivity. Qed.

Lemma lock_ok_discipline tr : lock_ok false tr = true -> lock_discipline tr.
Proof.
  intros H; split; [|split].
  - intros p ev q -> Hs; rewrite lock_ok_app in H.
    apply andb_true_iff in H as [_ H]; unfold held_after.
    destruct ev; try discriminate; simpl in H;
      apply andb_true_iff in H as [H _]; apply negb_true_iff in H; exact H.
  - intros p ev ev' q -> Hs; rewrite lock_ok_app in H.
    apply andb_true_iff in H as [_ H].
    destruct ev; try discriminate; simpl in H;
      apply andb_true_iff in H as [Hn H]; apply negb_true_iff in Hn;
      rewrite Hn in H; destruct ev'; simpl in H; try discriminate;
      auto.
  - intros p ev q -> Hs; rewrite lock_ok_app in H.
    apply andb_true_iff in H as [_ H]; unfold held_after.
    destruct ev; try discriminate; simpl in H;
      apply andb_true_iff in H as [H _]; exact H.
Qed.

Section Triples.
Context {E N : Type}.

Lemma St_Inv b (w : World E N) : St b w -> Inv w.
Proof. intros [H _]; exact H. Qed.

(** Extending the trace by one event allowed in lock state [b]. *)
Lemma St_ext b b' (w : World E N) ev (e : E) (n : N) bf :
  St b w -> lock_ok b [ev] = true -> held_step b ev = b' ->
  St b' (set_world e n bf b' (trace w ++ [ev])).
Proof.
  intros [[Hok Hh] Hl] Hev Hb'; unfold St, Inv; simpl.
  split; [split | reflexivity].
  - rewrite lock_ok_app, Hok; simpl.
    unfold held_after in Hh; rewrite Hh, Hl; exact Hev.
  - rewrite held_after_snoc, Hh, Hl; exact Hb'.
Qed.

Lemma triple_bind {A B} (P : World E N -> Prop) (m : M A) Q R
  (f : A -> M B) S :
  triple P m Q R -> (forall a, triple (Q a) (f a) S R) -> triple P (bind m f) S R.
Proof.
  intros Hm Hf w HP; unfold bind; specialize (Hm w HP).
  destruct (m w) as [w' [a|e|]]; [apply Hf|..]; assumption.
Qed.

Lemma triple_ret {A} (P : World E N -> Prop) (a : A) Q R :
  (forall w, P w -> Q a w) -> triple P (ret a) Q R.
Proof. intros H w HP; exact (H w HP). Qed.

Lemma triple_fail {A} (P : World E N -> Prop) e (Q : A -> _) R :
  (forall w, P w -> R w) -> triple P (fail e) Q R.
Proof. intros H w HP; exact (H w HP). Qed.

Lemma triple_halt {A} (P : World E N -> Prop) (Q : A -> _) R :
  (forall w, P w -> Inv w) -> triple P halt Q R.
Proof. intros H w HP; exact (H w HP). Qed.

Lemma triple_lift {A} (P : World E N -> Prop) (r : IoResult A) Q R :
  (forall a w, P w -> Q a w) -> (forall w, P w -> R w) -> triple P (lift r) Q R.
Proof. intros H1 H2; destruct r; simpl; [apply triple_ret | apply triple_fail]; auto. Qed.

Lemma triple_conseq {A} (P : World E N -> Prop) (m : M A) Q R Q' R' :
  triple P m Q R -> (forall a w, Q a w -> Q' a w) -> (forall w, R w -> R' w) ->
  triple P m Q' R'.
Proof.
  intros H HQ HR w HP; specialize (H w HP).
  destruct (m w) as [w' [a|e|]]; auto.
Qed.

Lemma release_St (w : World E N) : Inv w -> St false (release w).
Proof.
  intros HI; unfold release; destruct (locked w) eqn:Hl.
  - simpl; eapply St_ext; [split; eassumption | reflexivity | reflexivity].
  - split; assumption.
Qed.

Lemma triple_finally {A} (P : World E N -> Prop) (m : M A) :
  triple P m (fun _ => Inv) Inv ->
  triple P (finally_release m) (fun _ => St false) (St false).
Proof.
  intros H w HP; specialize (H w HP); unfold finally_release.
  destruct (m w) as [w' [a|e|]]; auto using release_St.
Qed.

Lemma triple_on_error {A} (P : World E N -> Prop) (m : M A) Q :
  triple P m Q Inv -> triple P (on_error_release m) Q (St false).
Proof.
  intros H w HP; specialize (H w HP); unfold on_error_release.
  destruct (m w) as [w' [a|e|]]; auto using release_St.
Qed.

Lemma triple_try {A} (P : World E N -> Prop) (m : M A) Q R R' :
  triple P m (fun _ => Q) R ->
  triple P (try_ m) (fun r w => match r with Ok _ => Q w | Err _ => R w end) R'.
Proof.
  intros H w HP; specialize (H w HP); unfold try_.
  destruct (m w) as [w' [a|e|]]; auto.
Qed.

Lemma triple_weaken {A} (P : World E N -> Prop) (m : M A) Q R R' :
  triple P m Q R -> (forall w, R w -> R' w) -> triple P m Q R'.
Proof. intros H HR; apply (triple_conseq P m Q R Q R'); auto. Qed.

Lemma triple_inv {A} (P : World E N -> Prop) (m : M A) Q R w :
  triple P m Q R -> (forall a w, Q a w -> Inv w) -> (forall w, R w -> Inv w) ->
  P w -> Inv (fst (m w)).
Proof.
  intros H HQ HR HP; specialize (H w HP).
  destruct (m w) as [w' [a|e|]]; simpl; eauto.
Qed.

End Triples.

Section Prims.
Context {E N : Type} (C : Connection E) (T : Stream N).

(** Closing a goal about a world extended by one event. *)
Ltac close_world HS HL :=
  simpl; rewrite ?HL;
  first
  [ eapply St_ext; [exact HS | reflexivity | reflexivity]
  | eapply St_Inv; eapply St_ext; [exact HS | reflexivity | reflexivity]
  | exact (St_Inv _ _ HS) ].

Ltac prim :=
  let w := fresh "w" in let HS := fresh "HS" in let HL := fresh "HL" in
  intros w HS; pose proof HS as [_ HL];
  simpl;
  repeat (match goal with
          | |- context [match ?x with _ => _ end] =>
              lazymatch x with
              | context [match _ with _ => _ end] => fail
              | _ => destruct x; simpl
              end
          end);
  try (close_world HS HL).

Lemma lock_triple (R : World E N -> Prop) : triple (St false) lock (fun _ => St true) R.
Proof. unfold lock; prim. Qed.

Lemma unlock_triple (R : World E N -> Prop) : triple (St true) unlock (fun _ => St false) R.
Proof. unfold unlock; prim. Qed.

Lemma buf_is_empty_triple (P R : World E N -> Prop) :
  triple P buf_is_empty (fun _ => P) R.
Proof. intros w HP; exact HP. Qed.

Lemma buf_is_full_triple (P R : World E N -> Prop) :
  triple P buf_is_full (fun _ => P) R.
Proof. intros w HP; exact HP. Qed.

Lemma c_wants_read_triple (R : World E N -> Prop) :
  triple (St true) (c_wants_read C) (fun _ => St true) R.
Proof. unfold c_wants_read, emit; prim. Qed.

Lemma c_wants_write_triple (R : World E N -> Prop) :
  triple (St true) (c_wants_write C) (fun _ => St true) R.
Proof. unfold c_wants_write, emit; prim. Qed.

Lemma c_read_tls_triple (R : World E N -> Prop) :
  (forall w, St true w -> R w) ->
  triple (St true) (c_read_tls C) (fun _ => St true) R.
Proof.
  intros HR w HS; pose proof HS as [_ HL]; unfold c_read_tls, emit; simpl.
  destruct (read_tls_space C (eng w)) as [k|e]; simpl.
  - destruct (Buffer.read (hbuf w) k) as [[b' bytes]|]; close_world HS HL.
  - apply HR; close_world HS HL.
Qed.

Lemma c_process_new_packets_triple (R : World E N -> Prop) :
  triple (St true) (c_process_new_packets C) (fun _ => St true) R.
Proof. unfold c_process_new_packets, emit; prim. Qed.

Lemma c_reader_read_triple (R : World E N -> Prop) len :
  triple (St true) (c_reader_read C len) (fun _ => St true) R.
Proof. unfold c_reader_read, emit; prim. Qed.

Lemma c_write_tls_triple (R : World E N -> Prop) :
  triple (St true) (c_write_tls C) (fun _ => St true) R.
Proof. unfold c_write_tls, emit; prim. Qed.

Lemma c_writer_flush_triple (R : World E N -> Prop) :
  triple (St true) (c_writer_flush C) (fun _ => St true) R.
Proof. unfold c_writer_flush, emit; prim. Qed.

Lemma c_writer_write_triple (R : World E N -> Prop) src :
  triple (St true) (c_writer_write C src) (fun _ => St true) R.
Proof. unfold c_writer_write, emit; prim. Qed.

Lemma c_send_close_notify_triple (R : World E N -> Prop) :
  triple (St true) (c_send_close_notify C) (fun _ => St true) R.
Proof. unfold c_send_close_notify, emit; prim. Qed.

Lemma s_read_from_triple (R : World E N -> Prop) :
  (forall w, St false w -> R w) ->
  triple (St false) (s_read_from T) (fun _ => St false) R.
Proof. intros HR; unfold s_read_from, emit; prim; apply HR; close_world HS HL. Qed.

Lemma s_write_to_triple (R : World E N -> Prop) :
  (forall w, St false w -> R w) ->
  triple (St false) (s_write_to T) (fun _ => St false) R.
Proof. intros HR; unfold s_write_to, emit; prim; apply HR; close_world HS HL. Qed.

Lemma s_shutdown_triple (R : World E N -> Prop) how :
  triple (St false) (s_shutdown T how) (fun _ => St false) R.
Proof. unfold s_shutdown, emit; prim. Qed.

End Prims.

Section Ops.
Context {E N : Type} (C : Connection E) (T : Stream N).

Lemma read_loop_triple fuel :
  triple (St true) (read_loop C T fuel) (fun _ => St true) Inv.
Proof.
  induction fuel as [|fuel IH]; cbn [read_loop].
  - apply triple_halt; apply St_Inv.
  - eapply triple_bind; [apply c_wants_read_triple | intros wr].
    destruct (negb wr); [apply triple_ret; auto|].
    apply triple_bind with (Q := fun _ => St true).
    + eapply triple_bind; [apply buf_is_empty_triple | intros empty].
      destruct empty.
      * eapply triple_bind; [apply unlock_triple | intros ?].
        eapply triple_bind; [apply s_read_from_triple, St_Inv | intros n].
        eapply triple_bind; [apply lock_triple | intros ?].
        apply triple_ret; auto.
      * apply triple_ret; auto.
    + intros brk; destruct brk; [apply triple_ret; auto|].
      eapply triple_bind; [apply c_read_tls_triple; apply St_Inv | intros ?].
      eapply triple_bind; [apply c_process_new_packets_triple | intros ok].
      apply triple_bind with (Q := fun _ => St true);
        [destruct ok; [apply triple_ret; auto | apply triple_fail; apply St_Inv]
        | intros ?].
      exact IH.
Qed.

Lemma full_loop_triple fuel :
  triple (@St E N true) (full_loop T fuel) (fun _ => St true) Inv.
Proof.
  induction fuel as [|fuel IH]; cbn [full_loop].
  - apply triple_halt; apply St_Inv.
  - eapply triple_bind; [apply buf_is_full_triple | intros full].
    destruct (negb full); [apply triple_ret; auto|].
    eapply triple_bind; [apply unlock_triple | intros ?].
    eapply triple_bind; [apply s_write_to_triple, St_Inv | intros ?].
    eapply triple_bind; [apply lock_triple | intros ?].
    exact IH.
Qed.

Lemma wants_write_body_triple fuel :
  triple (St true) (wants_write_body C T fuel) (fun _ => St true) Inv.
Proof.
  induction fuel as [|fuel IH]; cbn [wants_write_body].
  - apply triple_halt; apply St_Inv.
  - eapply triple_bind; [apply c_wants_write_triple | intros ww].
    destruct (negb ww); [apply triple_ret; auto|].
    eapply triple_bind; [apply full_loop_triple | intros ?].
    eapply triple_bind; [apply c_write_tls_triple | intros ?].
    exact IH.
Qed.

Lemma wants_write_loop_triple fuel :
  triple (St true) (wants_write_loop C T fuel) (fun _ => St true) (St false).
Proof. apply triple_on_error, wants_write_body_triple. Qed.

Lemma drain_loop_triple fuel :
  triple (@St E N false) (drain_loop T fuel) (fun _ => St false) (St false).
Proof.
  induction fuel as [|fuel IH]; cbn [drain_loop].
  - apply triple_halt; apply St_Inv.
  - eapply triple_bind; [apply buf_is_empty_triple | intros empty].
    destruct empty; [apply triple_ret; auto|].
    eapply triple_bind; [apply s_write_to_triple; auto | intros ?].
    exact IH.
Qed.

Lemma flush_triple fuel :
  triple (St true) (flush C T fuel) (fun _ => St false) (St false).
Proof.
  apply triple_finally.
  eapply triple_bind; [apply c_writer_flush_triple | intros r].
  eapply triple_bind;
    [apply triple_lift with (Q := fun _ => St true); [auto | apply St_Inv]
    | intros ?].
  eapply triple_bind;
    [eapply triple_weaken; [apply wants_write_loop_triple | apply St_Inv]
    | intros ?].
  eapply triple_bind; [apply unlock_triple | intros ?].
  eapply triple_conseq;
    [apply drain_loop_triple | intros ? ?; apply St_Inv | apply St_Inv].
Qed.

Lemma read_triple fuel len :
  triple (St false) (read C T fuel len) (fun _ => St false) (St false).
Proof.
  apply triple_finally.
  eapply triple_bind; [apply lock_triple | intros ?].
  eapply triple_bind; [apply read_loop_triple | intros ?].
  eapply triple_bind; [apply c_reader_read_triple | intros r].
  apply triple_lift; [intros ? ?; apply St_Inv | apply St_Inv].
Qed.

Lemma read_half_shutdown_triple how :
  triple (@St E N false) (read_half_shutdown T how) (fun _ => St false) (St false).
Proof.
  eapply triple_bind; [apply s_shutdown_triple | intros r].
  apply triple_lift; auto.
Qed.

Lemma write_triple fuel src :
  triple (St false) (write C T fuel src) (fun _ => St false) (St false).
Proof.
  apply triple_finally.
  eapply triple_bind; [apply lock_triple | intros ?].
  eapply triple_bind;
    [eapply triple_weaken; [apply wants_write_loop_triple | apply St_Inv]
    | intros ?].
  eapply triple_bind; [apply c_writer_write_triple | intros r].
  apply triple_lift; [intros ? ?; apply St_Inv | apply St_Inv].
Qed.

Lemma write_half_flush_triple fuel :
  triple (St false) (write_half_flush C T fuel) (fun _ => St false) (St false).
Proof.
  eapply triple_bind; [apply lock_triple | intros ?].
  apply flush_triple.
Qed.

Lemma write_half_shutdown_triple fuel how :
  triple (St false) (write_half_shutdown C T fuel how) (fun _ => St false) (St false).
Proof.
  unfold write_half_shutdown; destruct (Shutdown_eqb how Read).
  - eapply triple_bind; [apply s_shutdown_triple | intros r].
    apply triple_lift; auto.
  - eapply triple_bind; [apply lock_triple | intros ?].
    eapply triple_bind; [apply c_send_close_notify_triple | intros ?].
    eapply triple_bind; [apply triple_try, flush_triple | intros res].
    apply triple_bind with (Q := fun _ => St false).
    + destruct res; apply s_shutdown_triple.
    + intros r; eapply triple_bind;
        [apply triple_lift with (Q := fun _ => St false); auto | intros ?].
      apply triple_lift; auto.
Qed.

(** C3: For every operation of either half ([read], [shutdown] of the read half;
    [write], [flush], [shutdown] of the write half), every engine state,
    transport state, staging buffer and loop bound, the events of the
    operation obey the lock discipline: no transport call happens while the
    engine lock is held, each transport call is followed by another
    transport call, by re-taking the lock, or by nothing, and every engine
    call happens under the lock. *)
Theorem lock_never_held_across_io (fuel : nat) (o : Op) (w : World E N) :
  locked w = false -> trace w = [] -> lock_discipline (op_trace C T fuel o w).
Proof.
  intros Hl Ht.
  assert (HS : St false w).
  { unfold St, Inv; rewrite Ht, Hl; split; [split|]; reflexivity. }
  apply lock_ok_discipline.
  enough (HI : Inv match o with
                 | OpRead len => fst (read C T fuel len w)
                 | OpReadShutdown how => fst (read_half_shutdown T how w)
                 | OpWrite src => fst (write C T fuel src w)
                 | OpFlush => fst (write_half_flush C T fuel w)
                 | OpWriteShutdown how => fst (write_half_shutdown C T fuel how w)
                 end) by (destruct o; exact (proj1 HI)).
  destruct o;
    (eapply triple_inv;
     [ first [ apply read_triple | apply read_half_shutdown_triple
             | apply write_triple | apply write_half_flush_triple
             | apply write_half_shutdown_triple ]
     | intros ? ?; apply St_Inv | apply St_Inv | exact HS ]).
Qed.

End Ops.

Section Claims.
Context {E N : Type} (C : Connection E) (T : Stream N).

(** C2: Once the receive loop of [ReadHalf::read] has finished normally, the
    result of [read] is decided by the engine's plaintext read [r]: [Ok 0]
    (no bytes, no clean-close signal) becomes an [UnexpectedEof] error, the
    clean-close signal [ConnectionAborted] becomes [Ok 0], a positive count is
    returned unchanged, and any other error is passed through. *)
Theorem read_plaintext_result (fuel len : nat) (w0 w1 : World E N) :
  read_loop C T fuel (fst (lock w0)) = (w1, Ret tt) ->
  let r := snd (reader_read C (eng w1) len) in
  (r = Ok 0 -> snd (read C T fuel len w0) = Fail UnexpectedEof) /\
  (r = Err ConnectionAborted -> snd (read C T fuel len w0) = Ret 0) /\
  (forall n, r = Ok (S n) -> snd (read C T fuel len w0) = Ret (S n)) /\
  (forall e, r = Err e -> e <> ConnectionAborted ->
     snd (read C T fuel len w0) = Fail e).
Proof.
  intros H r.
  assert (Hread : snd (read C T fuel len w0) =
                  match finish_read r with Ok a => Ret a | Err e => Fail e end).
  { unfold read, finally_release, bind.
    change (lock w0) with (fst (lock w0), @Ret unit tt); cbv beta iota.
    rewrite H; unfold c_reader_read, r; simpl.
    destruct (reader_read C (eng w1) len) as [e' rr]; simpl.
    destruct (finish_read rr); reflexivity. }
  rewrite Hread; clearbody r.
  split; [intros -> | split; [intros -> | split; [intros n -> | intros e -> He]]];
    try reflexivity.
  destruct e; try reflexivity; contradiction.
Qed.

(** C4: [WriteHalf::shutdown(how)] for [how <> Read]: after taking the lock and
    sending close-notify (world [wA]) it runs the flush logic; unless that
    halts, the transport shutdown for [how] is then always performed, and
    the result is the shutdown's error when the shutdown fails, and the
    flush's outcome otherwise. *)
Theorem write_half_shutdown_after_flush (fuel : nat) (how : Shutdown)
  (w0 : World E N) :
  how <> Read ->
  let wA := set_world (send_close_notify C (eng w0)) (net w0) (hbuf w0) true
              ((trace w0 ++ [ELock]) ++ [EEng CSendCloseNotify]) in
  match flush C T fuel wA with
  | (wF, Halt) => write_half_shutdown C T fuel how w0 = (wF, Halt)
  | (wF, oF) =>
      write_half_shutdown C T fuel how w0 =
        (set_world (eng wF) (fst (stream_shutdown T (net wF) how)) (hbuf wF)
           (locked wF) (trace wF ++ [EStreamShutdown how]),
         match snd (stream_shutdown T (net wF) how) with
         | Ok _ => oF
         | Err e => Fail e
         end)
  end.
Proof.
  intros Hhow wA.
  assert (Hb : Shutdown_eqb how Read = false)
    by (destruct how; [contradiction | reflexivity | reflexivity]).
  unfold write_half_shutdown; rewrite Hb.
  unfold bind, try_, lock, c_send_close_notify, emit; cbn -[flush]; fold wA.
  destruct (flush C T fuel wA) as [wF [a|e|]]; [| |reflexivity];
    unfold s_shutdown, emit, lift, ret, fail; simpl;
    destruct (stream_shutdown T (net wF) how) as [n' [u|e']]; try destruct a; reflexivity.
Qed.

(** C8: [ReadHalf::shutdown(how)] forwards the caller's direction [how],
    unchanged, to the transport's shutdown and returns its result; the engine,
    the lock and the staging buffer are untouched and the only event is that
    transport call. *)
Theorem read_half_shutdown_forwards (how : Shutdown) (w : World E N) :
  read_half_shutdown T how w =
  (set_world (eng w) (fst (stream_shutdown T (net w) how)) (hbuf w) (locked w)
     (trace w ++ [EStreamShutdown how]),
   match snd (stream_shutdown T (net w) how) with
   | Ok _ => Ret tt
   | Err e => Fail e
   end).
Proof.
  unfold read_half_shutdown, bind, s_shutdown, emit; simpl.
  destruct (stream_shutdown T (net w) how) as [n' [u|e]]; try destruct u; reflexivity.
Qed.

End Claims.

(** C5: [split] panics exactly when the engine is still handshaking or one of
    the two staging buffers cannot be built, and a staging buffer cannot be
    built exactly when its seed is empty and its minimum capacity is 0; there
    is no recoverable-error outcome. *)
Theorem split_fatal_preconditions {E : Type} (C : Connection E) (conn : E)
  (rcfg wcfg : Buffer.BufCfg) :
  (split C conn rcfg wcfg = None <->
     is_handshaking C conn = true \/ Buffer.build_from rcfg = None \/
     Buffer.build_from wcfg = None) /\
  (forall cfg, Buffer.build_from cfg = None <->
     Buffer.initial_data cfg = [] /\ Buffer.min_capacity cfg = 0).
Proof.
  split; [|exact BufferProofs.build_from_none].
  unfold split.
  destruct (is_handshaking C conn); [split; auto|].
  destruct (Buffer.build_from rcfg); [|split; auto].
  destruct (Buffer.build_from wcfg); [|split; auto].
  split; [discriminate | intros [H|[H|H]]; discriminate].
Qed.

Lemma split_fatal_preconditions_witness :
  split cx_conn tt (Buffer.with_capacity 0) (Buffer.with_capacity 8) = None /\
  Buffer.build_from (Buffer.with_data [] 0) = None.
Proof.
  split.
  - apply (proj2 (proj1 (split_fatal_preconditions cx_conn tt
                           (Buffer.with_capacity 0) (Buffer.with_capacity 8)))).
    right; left; reflexivity.
  - apply (proj2 (proj2 (split_fatal_preconditions cx_conn tt
                           (Buffer.with_capacity 0) (Buffer.with_capacity 8))
                    (Buffer.with_data [] 0))).
    split; reflexivity.
Defined.

Lemma read_plaintext_result_witness :
  snd (read cx_conn cx_stream 1 4 cx_world) = Fail UnexpectedEof.
Proof.
  apply (proj1 (read_plaintext_result cx_conn cx_stream 1 4 cx_world
                  (fst (read_loop cx_conn cx_stream 1 (fst (lock cx_world))))
                  eq_refl)).
  reflexivity.
Defined.

Lemma lock_never_held_across_io_witness :
  op_trace cx_conn cx_stream 2 (OpWriteShutdown Write) cx_world =
    [ELock; EEng CSendCloseNotify; EEng CWriterFlush; EUnlock;
     EStreamShutdown Write] /\
  lock_discipline (op_trace cx_conn cx_stream 2 (OpWriteShutdown Write) cx_world).
Proof.
  split; [reflexivity|].
  apply (lock_never_held_across_io cx_conn cx_stream 2 (OpWriteShutdown Write)
           cx_world); reflexivity.
Defined.

Lemma write_half_shutdown_after_flush_witness :
  write_half_shutdown cx_conn cx_stream 2 Write cx_world =
    (set_world tt tt (hbuf cx_world) false
       [ELock; EEng CSendCloseNotify; EEng CWriterFlush; EUnlock;
        EStreamShutdown Write], Fail NotConnected).
Proof.
  pose proof (write_half_shutdown_after_flush cx_conn cx_stream 2 Write cx_world
                ltac:(discriminate)) as H.
  exact H.
Defined.

(** The flush fails with [Other], but [WriteHalf::shutdown(Write)] reports the
    transport's [NotConnected]: the flush error is not returned. *)
Lemma shutdown_flush_error_dropped :
  snd (flush cx_conn cx_stream 2
         (set_world tt tt (hbuf cx_world) true [ELock; EEng CSendCloseNotify]))
    = Fail Other /\
  snd (write_half_shutdown cx_conn cx_stream 2 Write cx_world) = Fail NotConnected.
Proof. split; reflexivity. Qed.

(** [ReadHalf::shutdown(Write)] shuts the transport down in the write
    direction, not the read direction. *)
Lemma read_half_shutdown_write_direction :
  op_trace cx_conn cx_stream 0 (OpReadShutdown Write) cx_world =
    [EStreamShutdown Write] /\
  EStreamShutdown Write <> EStreamShutdown Read.
Proof. split; [reflexivity | discriminate]. Qed.

End SplitProofs.

Module BufferExtra.
Import Buffer BufferOps.

Lemma overwrite_nil v off : overwrite v off [] = v.
Proof. revert off; induction v as [|x v IH]; intros [|o]; simpl; rewrite ?IH; reflexivity. Qed.



Lemma steps_capacity s i o s' :
  buffer_inv s -> steps s i o s' -> capacity s' = capacity s.
Proof.
  intros Hi Hs; induction Hs as [s | s i o s1 i' o' s2 Hst Hss IH]; [reflexivity|].
  destruct (BufferProofs.step_inv s i o s1 Hi Hst) as [Hi1 [Hc _]].
  rewrite (IH Hi1); exact Hc.
Qed.

(** X1: The capacity of a staging buffer is fixed when it is built, at
    [max(seed length, minimum capacity)], and no sequence of [read_from],
    [write_to], append or drain calls changes it; it is positive, so a buffer
    built successfully is never empty and full at once. *)
Theorem capacity_fixed (cfg : BufCfg) (s0 s : Internals) (ins outs : list byte) :
  build_from cfg = Some s0 -> steps s0 ins outs s ->
  capacity s = Nat.max (length (initial_data cfg)) (min_capacity cfg) /\
  0 < capacity s /\
  ~ (is_empty s = true /\ is_full s = true).
Proof.
  intros Hb Hs.
  destruct (BufferProofs.build_from_spec cfg s0 Hb) as (Hbuf & _ & _ & Hi0).
  assert (Hc : capacity s = Nat.max (length (initial_data cfg)) (min_capacity cfg)).
  { rewrite (steps_capacity s0 ins outs s Hi0 Hs).
    unfold capacity; rewrite Hbuf, length_app, repeat_length; lia. }
  assert (Hpos : 0 < capacity s).
  { rewrite Hc.
    destruct (Nat.eq_dec (Nat.max (length (initial_data cfg)) (min_capacity cfg)) 0)
      as [H0|H0]; [|lia].
    exfalso.
    assert (Hn : build_from cfg = None).
    { apply BufferProofs.build_from_none; split; [apply length_zero_iff_nil|]; lia. }
    congruence. }
  split; [exact Hc|]. split; [exact Hpos|].
  unfold is_empty, is_full, capacity in *; rewrite !Nat.eqb_eq; lia.
Qed.

Lemma capacity_fixed_witness :
  build_from (with_data [x01] 3) =
    Some {| buf := [x01; x00; x00]; start := 0; end_ := 1 |} /\
  capacity {| buf := [x01; x07; x00]; start := 0; end_ := 2 |} = Nat.max 1 3.
Proof.
  split; [reflexivity|].
  exact (proj1 (capacity_fixed (with_data [x01] 3)
    {| buf := [x01; x00; x00]; start := 0; end_ := 1 |}
    {| buf := [x01; x07; x00]; start := 0; end_ := 2 |} [x07] [] eq_refl
    (steps_cons _ [x07] [] _ [] [] _
       (step_write {| buf := [x01; x00; x00]; start := 0; end_ := 1 |} [x07]
          {| buf := [x01; x07; x00]; start := 0; end_ := 2 |} 1 eq_refl)
       (steps_refl _)))).
Defined.

(** X2: [ReadBuffer::read_from] hands the reader the whole free region
    [buf[end..]] (of length [capacity - end]); a reader error is returned and
    leaves the buffer unchanged; a successful read of [data] that fits
    returns its length, keeps [start] and the capacity, advances [end] by it
    and appends exactly [data] to the pending bytes. *)
Theorem read_from_outcome (s : Internals) :
  bounds s ->
  slice (buf s) (end_ s) (length (buf s)) =
    Some (firstn (capacity s - end_ s) (skipn (end_ s) (buf s))) /\
  length (firstn (capacity s - end_ s) (skipn (end_ s) (buf s))) = capacity s - end_ s /\
  (forall e, read_from s (Err e) = Some (s, Err e)) /\
  (forall data, length data <= capacity s - end_ s ->
     exists s', read_from s (Ok data) = Some (s', Ok (length data)) /\
       start s' = start s /\ end_ s' = end_ s + length data /\
       capacity s' = capacity s /\ pending s' = pending s ++ data).
Proof.
  intros Hb; pose proof Hb as Hb'; unfold bounds, capacity in Hb'.
  split; [exact (BufferProofs.slice_tail s Hb)|].
  split; [unfold capacity; rewrite length_firstn, length_skipn; lia|].
  split.
  - intros e; unfold read_from; rewrite BufferProofs.slice_tail by exact Hb; reflexivity.
  - intros data Hd; unfold read_from; rewrite BufferProofs.slice_tail by exact Hb.
    eexists; split; [reflexivity|]; simpl.
    split; [reflexivity|]. split; [reflexivity|]. split.
    + unfold capacity; simpl; apply BufferProofs.length_overwrite.
    + exact (BufferProofs.pending_append s data Hb Hd).
Qed.

(** X3: [WriteBuffer::write_to] hands the writer exactly the pending bytes
    [buf[start..end]]; a writer error is returned and leaves the buffer
    unchanged; a reported count [n] within the pending length drops exactly
    the first [n] pending bytes; writing everything resets the buffer to
    [start = end = 0]. *)
Theorem write_to_outcome (s : Internals) :
  bounds s ->
  slice (buf s) (start s) (end_ s) = Some (pending s) /\
  (forall e, write_to s (Err e) = Some (s, Err e)) /\
  (forall n, n <= end_ s - start s ->
     exists s', write_to s (Ok n) = Some (s', Ok n) /\
       pending s' = skipn n (pending s) /\ capacity s' = capacity s) /\
  write_to s (Ok (end_ s - start s)) =
    Some ({| buf := buf s; start := 0; end_ := 0 |}, Ok (end_ s - start s)).
Proof.
  intros Hb; pose proof Hb as Hb'; unfold bounds, capacity in Hb'.
  split; [exact (BufferProofs.slice_pending s Hb)|].
  split; [intros e; unfold write_to; rewrite BufferProofs.slice_pending by exact Hb;
          reflexivity|].
  split.
  - intros n Hn; unfold write_to; rewrite BufferProofs.slice_pending by exact Hb.
    eexists; split; [reflexivity|]. split.
    + exact (BufferProofs.pending_advance s n Hb Hn).
    + unfold capacity, advance_start; destruct (_ =? _); reflexivity.
  - unfold write_to; rewrite BufferProofs.slice_pending by exact Hb.
    unfold advance_start.
    replace (start s + (end_ s - start s) =? end_ s) with true
      by (symmetry; apply Nat.eqb_eq; lia).
    reflexivity.
Qed.



(** X6: On a buffer satisfying the invariant, a drain from an empty buffer
    or into a zero-length destination copies nothing and leaves the buffer
    unchanged, and an append to a full buffer or of no bytes writes nothing,
    returns 0 and leaves the buffer unchanged. *)
Theorem drain_append_no_op (s : Internals) :
  buffer_inv s ->
  (is_empty s = true -> forall k, read s k = Some (s, [])) /\
  read s 0 = Some (s, []) /\
  (is_full s = true -> forall src, write s src = Some (s, 0)) /\
  write s [] = Some (s, 0).
Proof.
  intros Hi; pose proof Hi as [Hb Hz]; pose proof Hb as Hb'; unfold bounds, capacity in Hb'.
  assert (Hr0 : forall k, Nat.min (end_ s - start s) k = 0 -> read s k = Some (s, [])).
  { intros k Hk; unfold read; rewrite BufferProofs.slice_pending by exact Hb.
    cbv beta iota zeta.
    rewrite BufferProofs.pending_length by exact Hb; rewrite Hk; simpl.
    unfold advance_start; rewrite Nat.add_0_r.
    destruct (start s =? end_ s) eqn:He.
    - apply Nat.eqb_eq in He; specialize (Hz He).
      destruct s as [b st en]; simpl in *.
      assert (st = 0) by lia; subst; reflexivity.
    - destruct s; reflexivity. }
  assert (Hw0 : forall src, Nat.min (capacity s - end_ s) (length src) = 0 ->
                  write s src = Some (s, 0)).
  { intros src Hm; unfold write; rewrite BufferProofs.slice_tail by exact Hb.
    cbv beta iota zeta.
    rewrite length_firstn, length_skipn.
    replace (Nat.min (Nat.min (length (buf s) - end_ s) (length (buf s) - end_ s))
               (length src)) with 0 by (unfold capacity in Hm; lia).
    simpl; rewrite overwrite_nil, Nat.add_0_r; destruct s; reflexivity. }
  split; [|split; [|split]].
  - intros He k; apply Hr0; unfold is_empty in He; apply Nat.eqb_eq in He; lia.
  - apply Hr0; lia.
  - intros Hf src; apply Hw0; unfold is_full in Hf; apply Nat.eqb_eq in Hf;
      unfold capacity; lia.
  - apply Hw0; simpl; lia.
Qed.

(** X7: Appending [src] to an empty buffer stores its first
    [min(capacity, length src)] bytes, which become the pending bytes; a drain
    into a destination at least that long returns exactly those bytes and
    leaves the buffer empty at [start = end = 0]. *)
Theorem append_then_drain (s : Internals) (src : list byte) :
  buffer_inv s -> is_empty s = true ->
  let len := Nat.min (capacity s) (length src) in
  exists s1, write s src = Some (s1, len) /\ pending s1 = firstn len src /\
    (forall k, len <= k ->
       read s1 k = Some ({| buf := buf s1; start := 0; end_ := 0 |}, firstn len src)).
Proof.
  intros [Hb Hz] He len.
  unfold is_empty in He; apply Nat.eqb_eq in He.
  pose proof Hb as Hb'; unfold bounds, capacity in Hb'.
  assert (Hs0 : start s = 0) by lia.
  assert (Hl : len <= length src /\ len <= capacity s) by (unfold len; lia).
  assert (Hlen : length (firstn len src) = len) by (rewrite length_firstn; lia).
  assert (Hfit : length (firstn len src) <= capacity s - end_ s) by (rewrite Hlen, He; lia).
  unfold write; rewrite BufferProofs.slice_tail by exact Hb; cbv beta iota zeta.
  rewrite length_firstn, length_skipn.
  replace (Nat.min (Nat.min (length (buf s) - end_ s) (length (buf s) - end_ s))
             (length src)) with len by (unfold len, capacity; lia).
  set (s1 := {| buf := overwrite (buf s) (end_ s) (firstn len src); start := start s;
                end_ := end_ s + len |}).
  assert (Hp : pending s1 = firstn len src).
  { pose proof (BufferProofs.pending_append s (firstn len src) Hb Hfit) as Hp.
    rewrite Hlen in Hp. unfold s1; rewrite Hp.
    assert (pending s = []) as ->
      by (apply length_zero_iff_nil; rewrite BufferProofs.pending_length by exact Hb; lia).
    reflexivity. }
  exists s1; split; [reflexivity|]; split; [exact Hp|].
  intros k Hk.
  assert (Hb1 : bounds s1)
    by (destruct Hl as [_ Hl2]; unfold capacity in Hl2;
        unfold bounds, capacity, s1; simpl; rewrite BufferProofs.length_overwrite; lia).
  unfold read; rewrite BufferProofs.slice_pending by exact Hb1; cbv beta iota zeta.
  rewrite Hp, Hlen.
  replace (Nat.min len k) with len by lia.
  rewrite firstn_firstn, Nat.min_id.
  unfold advance_start.
  replace (start s1 + len =? end_ s1) with true
    by (symmetry; apply Nat.eqb_eq; unfold s1; simpl; lia).
  reflexivity.
Qed.

Lemma read_from_outcome_witness :
  bounds {| buf := [x01; x00; x00]; start := 0; end_ := 1 |} /\
  read_from {| buf := [x01; x00; x00]; start := 0; end_ := 1 |} (Err WouldBlock) =
    Some ({| buf := [x01; x00; x00]; start := 0; end_ := 1 |}, Err WouldBlock).
Proof.
  assert (Hb : bounds {| buf := [x01; x00; x00]; start := 0; end_ := 1 |})
    by (unfold bounds, capacity; simpl; lia).
  split; [exact Hb|].
  exact (proj1 (proj2 (proj2 (read_from_outcome _ Hb))) WouldBlock).
Defined.

Lemma write_to_outcome_witness :
  bounds {| buf := [x01; x02; x00]; start := 0; end_ := 2 |} /\
  write_to {| buf := [x01; x02; x00]; start := 0; end_ := 2 |} (Ok 2) =
    Some ({| buf := [x01; x02; x00]; start := 0; end_ := 0 |}, Ok 2).
Proof.
  assert (Hb : bounds {| buf := [x01; x02; x00]; start := 0; end_ := 2 |})
    by (unfold bounds, capacity; simpl; lia).
  split; [exact Hb|].
  exact (proj2 (proj2 (proj2 (write_to_outcome _ Hb)))).
Defined.



Lemma drain_append_no_op_witness :
  buffer_inv {| buf := [x01; x02]; start := 0; end_ := 2 |} /\
  write {| buf := [x01; x02]; start := 0; end_ := 2 |} [x09] =
    Some ({| buf := [x01; x02]; start := 0; end_ := 2 |}, 0).
Proof.
  assert (Hi : buffer_inv {| buf := [x01; x02]; start := 0; end_ := 2 |})
    by (unfold buffer_inv, bounds, capacity; simpl; lia).
  split; [exact Hi|].
  exact (proj1 (proj2 (proj2 (drain_append_no_op _ Hi))) eq_refl [x09]).
Defined.

Lemma append_then_drain_witness :
  buffer_inv {| buf := [x00; x00; x00]; start := 0; end_ := 0 |} /\
  exists s1, write {| buf := [x00; x00; x00]; start := 0; end_ := 0 |} [x01; x02] =
               Some (s1, 2) /\
             read s1 4 = Some ({| buf := buf s1; start := 0; end_ := 0 |}, [x01; x02]).
Proof.
  assert (Hi : buffer_inv {| buf := [x00; x00; x00]; start := 0; end_ := 0 |})
    by (unfold buffer_inv, bounds, capacity; simpl; lia).
  split; [exact Hi|].
  destruct (append_then_drain _ [x01; x02] Hi eq_refl) as (s1 & H1 & _ & H3).
  exists s1; split; [exact H1 | exact (H3 4 ltac:(simpl; lia))].
Defined.

End BufferExtra.

Module SplitExtra.

Section Inversion.
Context {E N : Type}.











End Inversion.

Section Extra.
Context {E N : Type} (C : Connection E) (T : Stream N).


(** Every public operation returns with the lock released. *)
Lemma forget_released {A} (P : World E N -> Prop) (m : @M E N A) w :
  triple P m (fun _ => St false) (St false) -> P w ->
  match forget (m w) with
  | (_, Halt) => True
  | (w', _) => locked w' = false /\ held_after (trace w') = false
  end.
Proof.
  intros H HP; specialize (H w HP); unfold forget.
  destruct (m w) as [w' [a|e|]]; simpl; auto;
    destruct H as [[_ Hh] Hl]; rewrite Hh; auto.
Qed.

(** X8: Every operation of either half that returns, with a value or with
    an error, returns with the engine lock released: the guard is dropped on
    every return path. *)
Theorem ops_release_lock (fuel : nat) (o : Op) (w : World E N) :
  locked w = false -> trace w = [] ->
  match op_run C T fuel o w with
  | (_, Halt) => True
  | (w', _) => locked w' = false /\ held_after (trace w') = false
  end.
Proof.
  intros Hl Ht.
  assert (HS : St false w).
  { unfold St, Inv; rewrite Ht, Hl; split; [split|]; reflexivity. }
  destruct o; simpl; eapply forget_released; try exact HS.
  - apply SplitProofs.read_triple.
  - apply SplitProofs.read_half_shutdown_triple.
  - apply SplitProofs.write_triple.
  - apply SplitProofs.write_half_flush_triple.
  - apply SplitProofs.write_half_shutdown_triple.
Qed.

(** X9: When the engine does not want to read, [ReadHalf::read] takes the
    lock, reads plaintext from the engine once and releases the lock: no
    transport call, the staging buffer untouched, and the result is the
    plaintext read mapped as in the final [match]. *)
Theorem read_without_wants_read (fuel len : nat) (w : World E N) :
  0 < fuel -> wants_read C (eng w) = false ->
  read C T fuel len w =
    (set_world (fst (reader_read C (eng w) len)) (net w) (hbuf w) false
       (trace w ++ [ELock; EEng CWantsRead; EEng CReaderRead; EUnlock]),
     match finish_read (snd (reader_read C (eng w) len)) with
     | Ok a => Ret a
     | Err e => Fail e
     end).
Proof.
  intros Hf Hw; destruct fuel as [|fuel]; [lia|].
  unfold read, finally_release, bind, lock, emit, set_world; cbn.
  rewrite Hw; cbn.
  unfold c_reader_read, emit, set_world; cbn.
  destruct (reader_read C (eng w) len) as [e' r]; cbn.
  destruct (finish_read r); cbn; rewrite <- !app_assoc; reflexivity.
Qed.

Lemma slice_whole (v : list byte) : Buffer.slice v 0 (length v) = Some v.
Proof.
  unfold Buffer.slice; rewrite Nat.leb_refl; simpl.
  rewrite Nat.sub_0_r, firstn_all; reflexivity.
Qed.

(** X10: When the engine wants to read and the staging buffer is empty,
    [ReadHalf::read] releases the lock and reads from the transport into the
    whole buffer; if the transport reports end of stream (0 bytes), the loop
    stops without calling [read_tls], the lock is re-taken, and the result
    comes from the engine's plaintext read. *)
Theorem read_transport_eof (fuel len : nat) (w : World E N) (n' : N) :
  0 < fuel -> wants_read C (eng w) = true -> Buffer.is_empty (hbuf w) = true ->
  stream_read T (net w) (Buffer.capacity (hbuf w)) = (n', Ok []) ->
  read C T fuel len w =
    (set_world (fst (reader_read C (eng w) len)) n' (hbuf w) false
       (trace w ++ [ELock; EEng CWantsRead; EUnlock; EStreamRead;
                    ELock; EEng CReaderRead; EUnlock]),
     match finish_read (snd (reader_read C (eng w) len)) with
     | Ok a => Ret a
     | Err e => Fail e
     end).
Proof.
  intros Hf Hw He Hs; destruct fuel as [|fuel]; [lia|].
  destruct w as [e n b l tr]; simpl in *.
  destruct b as [bb st en]; unfold Buffer.is_empty in He; simpl in He.
  apply Nat.eqb_eq in He; subst en.
  unfold Buffer.capacity in Hs; simpl in Hs.
  pose proof (slice_whole bb) as Hsl.
  unfold read, finally_release.
  do 12 (try rewrite Hw; try rewrite Hsl; try rewrite Hs;
         try unfold bind, buf_is_empty, unlock, lock, emit, set_world, s_read_from,
           Buffer.read_from, ret, c_wants_read, c_reader_read;
         cbn -[Buffer.slice]).
  rewrite BufferExtra.overwrite_nil.
  destruct (reader_read C e len) as [e' r]; cbn.
  destruct (finish_read r); cbn; rewrite <- !app_assoc; reflexivity.
Qed.

(** X11: When the engine wants to read, the staging buffer is empty and the
    transport read fails, [ReadHalf::read] returns the transport's error
    without re-taking the lock; the engine and the staging buffer are
    unchanged. *)
Theorem read_transport_error (fuel len : nat) (w : World E N) (n' : N) (e : ErrorKind) :
  0 < fuel -> wants_read C (eng w) = true -> Buffer.is_empty (hbuf w) = true ->
  stream_read T (net w) (Buffer.capacity (hbuf w)) = (n', Err e) ->
  read C T fuel len w =
    (set_world (eng w) n' (hbuf w) false
       (trace w ++ [ELock; EEng CWantsRead; EUnlock; EStreamRead]),
     Fail e).
Proof.
  intros Hf Hw He Hs; destruct fuel as [|fuel]; [lia|].
  destruct w as [e0 n b l tr]; simpl in *.
  destruct b as [bb st en]; unfold Buffer.is_empty in He; simpl in He.
  apply Nat.eqb_eq in He; subst en.
  unfold Buffer.capacity in Hs; simpl in Hs.
  pose proof (slice_whole bb) as Hsl.
  unfold read, finally_release.
  do 12 (try rewrite Hw; try rewrite Hsl; try rewrite Hs;
         try unfold bind, buf_is_empty, unlock, lock, emit, set_world, s_read_from,
           Buffer.read_from, ret, c_wants_read, release;
         cbn -[Buffer.slice]).
  rewrite <- !app_assoc; reflexivity.
Qed.

(** X12: When the engine wants to read and the staging buffer holds bytes,
    [ReadHalf::read] feeds them to the engine without any transport call: an
    error of [read_tls] is returned as is, and records rejected by
    [process_new_packets] give an [InvalidData] error; in both cases the
    lock is released. *)
Theorem read_engine_errors (fuel len : nat) (w : World E N) :
  0 < fuel -> wants_read C (eng w) = true -> Buffer.is_empty (hbuf w) = false ->
  BufferOps.bounds (hbuf w) ->
  (forall e, read_tls_space C (eng w) = Err e ->
     read C T fuel len w =
       (set_world (eng w) (net w) (hbuf w) false
          (trace w ++ [ELock; EEng CWantsRead; EEng CReadTls; EUnlock]), Fail e)) /\
  (forall k, read_tls_space C (eng w) = Ok k ->
     let bytes := firstn (Nat.min (Buffer.end_ (hbuf w) - Buffer.start (hbuf w)) k)
                    (Buffer.pending (hbuf w)) in
     snd (process_new_packets C (read_tls_absorb C (eng w) bytes)) = false ->
     snd (read C T fuel len w) = Fail InvalidData /\
     locked (fst (read C T fuel len w)) = false /\
     trace (fst (read C T fuel len w)) =
       trace w ++ [ELock; EEng CWantsRead; EEng CReadTls; EEng CProcessNewPackets;
                   EUnlock]).
Proof.
  intros Hf Hw He Hb; destruct fuel as [|fuel]; [lia|].
  pose proof (BufferProofs.slice_pending _ Hb) as Hsp.
  pose proof (BufferProofs.pending_length _ Hb) as Hpl.
  destruct w as [e0 n b l tr]; simpl in *.
  split.
  - intros e Hr.
    unfold read, finally_release.
    do 12 (try rewrite Hw; try rewrite He; try rewrite Hr;
           try unfold bind, buf_is_empty, unlock, lock, emit, set_world, c_read_tls,
             ret, c_wants_read, release;
           cbn -[Buffer.slice Buffer.is_empty]).
    rewrite <- !app_assoc; reflexivity.
  - intros k Hr Hp.
    destruct (process_new_packets C (read_tls_absorb C e0
                (firstn (Nat.min (Buffer.end_ b - Buffer.start b) k) (Buffer.pending b))))
      as [e1 ok] eqn:Hpn.
    simpl in Hp; subst ok.
    unfold read, finally_release.
    do 14 (try rewrite Hw; try rewrite He; try rewrite Hr; try rewrite Hsp;
           try rewrite Hpl; try rewrite Hpn;
           try unfold bind, buf_is_empty, unlock, lock, emit, set_world, c_read_tls,
             ret, c_wants_read, release, c_process_new_packets, fail, Buffer.read;
           cbn -[Buffer.slice Buffer.is_empty Buffer.pending]).
    rewrite <- !app_assoc; auto.
Qed.

(** X13: When the engine has no record output pending, [WriteHalf::write]
    takes the lock, hands the bytes to the engine's plaintext writer once,
    releases the lock and returns the writer's result, with no transport
    call and the staging buffer untouched. *)
Theorem write_without_wants_write (fuel : nat) (src : list byte) (w : World E N) :
  0 < fuel -> wants_write C (eng w) = false ->
  write C T fuel src w =
    (set_world (fst (writer_write C (eng w) src)) (net w) (hbuf w) false
       (trace w ++ [ELock; EEng CWantsWrite; EEng CWriterWrite; EUnlock]),
     match snd (writer_write C (eng w) src) with
     | Ok a => Ret a
     | Err e => Fail e
     end).
Proof.
  intros Hf Hw; destruct fuel as [|fuel]; [lia|].
  destruct w as [e0 n b l tr]; simpl in *.
  unfold write, finally_release, wants_write_loop, on_error_release.
  do 8 (try rewrite Hw;
        try unfold bind, lock, emit, set_world, c_wants_write, ret, c_writer_write;
        cbn).
  destruct (writer_write C e0 src) as [e' [a|e]]; cbn; rewrite <- !app_assoc;
    reflexivity.
Qed.

(** X14: If the engine's plaintext flush fails, [WriteHalf::flush] returns
    that error right away with the lock released: no record is moved to the
    staging buffer and no transport call happens. *)
Theorem flush_engine_error (fuel : nat) (w : World E N) (e' : E) (e : ErrorKind) :
  writer_flush C (eng w) = (e', Err e) ->
  write_half_flush C T fuel w =
    (set_world e' (net w) (hbuf w) false
       (trace w ++ [ELock; EEng CWriterFlush; EUnlock]), Fail e).
Proof.
  intros Hw; destruct w as [e0 n b l tr]; simpl in *.
  unfold write_half_flush, flush, finally_release.
  do 6 (try rewrite Hw;
        try unfold bind, lock, emit, set_world, c_writer_flush, lift, fail, release;
        cbn).
  rewrite <- !app_assoc; reflexivity.
Qed.





End Extra.


Lemma ops_release_lock_witness :
  op_run cx_conn cx_stream 2 (OpWriteShutdown Write) cx_world =
    (set_world tt tt (hbuf cx_world) false
       [ELock; EEng CSendCloseNotify; EEng CWriterFlush; EUnlock;
        EStreamShutdown Write], Fail NotConnected) /\
  locked (fst (op_run cx_conn cx_stream 2 (OpWriteShutdown Write) cx_world)) = false.
Proof.
  split; [reflexivity|].
  exact (proj1 (ops_release_lock cx_conn cx_stream 2 (OpWriteShutdown Write) cx_world
                  eq_refl eq_refl)).
Defined.

Lemma read_without_wants_read_witness :
  read cx_conn cx_stream 1 4 cx_world =
    (set_world tt tt (hbuf cx_world) false
       [ELock; EEng CWantsRead; EEng CReaderRead; EUnlock], Fail UnexpectedEof).
Proof. exact (read_without_wants_read cx_conn cx_stream 1 4 cx_world ltac:(lia) eq_refl). Defined.

Lemma read_transport_eof_witness :
  read rd_conn cx_stream 1 4 cx_world =
    (set_world tt tt (hbuf cx_world) false
       [ELock; EEng CWantsRead; EUnlock; EStreamRead; ELock; EEng CReaderRead; EUnlock],
     Ret 0).
Proof.
  exact (read_transport_eof rd_conn cx_stream 1 4 cx_world tt ltac:(lia)
           eq_refl eq_refl eq_refl).
Defined.

Lemma read_transport_error_witness :
  read rd_conn err_stream 1 4 cx_world =
    (set_world tt tt (hbuf cx_world) false
       [ELock; EEng CWantsRead; EUnlock; EStreamRead], Fail WouldBlock).
Proof.
  exact (read_transport_error rd_conn err_stream 1 4 cx_world tt WouldBlock ltac:(lia)
           eq_refl eq_refl eq_refl).
Defined.

Lemma read_engine_errors_witness :
  snd (read rd_conn cx_stream 1 4 one_world) = Fail InvalidData.
Proof.
  exact (proj1 (proj2 (read_engine_errors rd_conn cx_stream 1 4 one_world ltac:(lia)
                         eq_refl eq_refl
                         ltac:(unfold BufferOps.bounds, Buffer.capacity; simpl; lia))
                  4 eq_refl eq_refl)).
Defined.

Lemma write_without_wants_write_witness :
  write rd_conn cx_stream 1 [x01; x02] cx_world =
    (set_world tt tt (hbuf cx_world) false
       [ELock; EEng CWantsWrite; EEng CWriterWrite; EUnlock], Ret 2).
Proof.
  exact (write_without_wants_write rd_conn cx_stream 1 [x01; x02] cx_world ltac:(lia)
           eq_refl).
Defined.

Lemma flush_engine_error_witness :
  write_half_flush cx_conn cx_stream 2 cx_world =
    (set_world tt tt (hbuf cx_world) false [ELock; EEng CWriterFlush; EUnlock],
     Fail Other).
Proof. exact (flush_engine_error cx_conn cx_stream 2 cx_world tt Other eq_refl). Defined.


End SplitExtra.

Module PreserveProofs.

Section Preserve.
Context {E N : Type} (C : Connection E) (T : Stream N).

Lemma pres_bind {A B} (m : @M E N A) (f : A -> M B) :
  preserves (@BufInv E N) m -> (forall a, preserves (@BufInv E N) (f a)) -> preserves (@BufInv E N) (bind m f).
Proof.
  intros Hm Hf w Hw; unfold bind; specialize (Hm w Hw).
  destruct (m w) as [w' [a|e|]]; simpl in *; [apply Hf|..]; assumption.
Qed.

Lemma pres_frame {A} (m : @M E N A) :
  (forall w, hbuf (fst (m w)) = hbuf w) -> preserves (@BufInv E N) m.
Proof. intros H w Hw; unfold BufInv in *; rewrite H; exact Hw. Qed.

Lemma pres_ret {A} (a : A) : preserves (@BufInv E N) (ret a).
Proof. apply pres_frame; reflexivity. Qed.

Lemma pres_fail {A} e : preserves (@BufInv E N) (@fail E N A e).
Proof. apply pres_frame; reflexivity. Qed.

Lemma pres_halt {A} : preserves (@BufInv E N) (@halt E N A).
Proof. apply pres_frame; reflexivity. Qed.

Lemma pres_lift {A} (r : IoResult A) : preserves (@BufInv E N) (lift r).
Proof. destruct r; [apply pres_ret | apply pres_fail]. Qed.

Lemma release_hbuf (w : World E N) : hbuf (release w) = hbuf w.
Proof. unfold release; destruct (locked w); reflexivity. Qed.

Lemma pres_finally {A} (m : @M E N A) :
  preserves (@BufInv E N) m -> preserves (@BufInv E N) (finally_release m).
Proof.
  intros Hm w Hw; specialize (Hm w Hw); unfold finally_release, BufInv in *.
  destruct (m w) as [w' [a|e|]]; simpl in *; rewrite ?release_hbuf; exact Hm.
Qed.

Lemma pres_on_error {A} (m : @M E N A) :
  preserves (@BufInv E N) m -> preserves (@BufInv E N) (on_error_release m).
Proof.
  intros Hm w Hw; specialize (Hm w Hw); unfold on_error_release, BufInv in *.
  destruct (m w) as [w' [a|e|]]; simpl in *; rewrite ?release_hbuf; exact Hm.
Qed.

Lemma pres_try {A} (m : @M E N A) :
  preserves (@BufInv E N) m -> preserves (@BufInv E N) (try_ m).
Proof.
  intros Hm w Hw; specialize (Hm w Hw); unfold try_.
  destruct (m w) as [w' [a|e|]]; exact Hm.
Qed.

Ltac frame :=
  apply pres_frame; intros ?;
  repeat (unfold lock, unlock, emit, set_world, buf_is_empty, buf_is_full,
            c_wants_read, c_wants_write, c_process_new_packets, c_reader_read,
            c_writer_flush, c_writer_write, c_send_close_notify, s_shutdown; simpl);
  repeat match goal with
         | |- context [let (_, _) := ?x in _] => destruct x
         end; reflexivity.

Lemma pres_lock : preserves (@BufInv E N) lock.
Proof. frame. Qed.

Lemma pres_unlock : preserves (@BufInv E N) unlock.
Proof. frame. Qed.

Lemma pres_buf_is_empty : preserves (@BufInv E N) buf_is_empty.
Proof. frame. Qed.

Lemma pres_buf_is_full : preserves (@BufInv E N) buf_is_full.
Proof. frame. Qed.

Lemma pres_engine_calls :
  preserves (@BufInv E N) (c_wants_read C) /\ preserves (@BufInv E N) (c_wants_write C) /\
  preserves (@BufInv E N) (c_process_new_packets C) /\
  (forall len, preserves (@BufInv E N) (c_reader_read C len)) /\
  preserves (@BufInv E N) (c_writer_flush C) /\
  (forall src, preserves (@BufInv E N) (c_writer_write C src)) /\
  preserves (@BufInv E N) (c_send_close_notify C) /\
  (forall how, preserves (@BufInv E N) (s_shutdown T how)).
Proof.
  repeat match goal with |- _ /\ _ => split end;
    [frame | frame | frame | intros len; frame | frame | intros src; frame | frame
    | intros how; frame].
Qed.

Lemma pres_read_tls : preserves (@BufInv E N) (c_read_tls C).
Proof.
  intros w Hw; unfold c_read_tls, emit, BufInv in *; simpl.
  destruct (read_tls_space C (eng w)) as [k|e]; simpl; [|exact Hw].
  destruct (Buffer.read (hbuf w) k) as [[b' bytes]|] eqn:Hr; simpl; [|exact Hw].
  exact (proj1 (BufferProofs.step_inv _ _ _ _ Hw (BufferOps.step_read _ _ _ _ Hr))).
Qed.

Lemma pres_write_tls : preserves (@BufInv E N) (c_write_tls C).
Proof.
  intros w Hw; unfold c_write_tls, emit, BufInv in *; simpl.
  destruct (Buffer.write (hbuf w) (write_tls_pending C (eng w))) as [[b' n]|] eqn:Hr;
    simpl; [|exact Hw].
  exact (proj1 (BufferProofs.step_inv _ _ _ _ Hw (BufferOps.step_write _ _ _ _ Hr))).
Qed.

Section Contracts.
Hypothesis HR : read_contract T.
Hypothesis HW : write_contract T.

Lemma pres_read_from : preserves (@BufInv E N) (s_read_from T).
Proof.
  intros w Hw; unfold s_read_from, emit, BufInv in *.
  pose proof Hw as [Hb _].
  rewrite (BufferProofs.slice_tail _ Hb); simpl.
  destruct (stream_read T (net w) _) as [n' r] eqn:Hs.
  destruct r as [d|e].
  - pose proof (HR _ _ _ _ Hs) as Hd.
    rewrite length_firstn, length_skipn in Hd.
    destruct (Buffer.read_from (hbuf w) (Ok d)) as [[b' [k|e]]|] eqn:Hr; simpl;
      try exact Hw.
    + refine (proj1 (BufferProofs.step_inv _ _ _ _ Hw
                       (BufferOps.step_read_from _ d _ k _ Hr))).
      unfold Buffer.capacity; lia.
    + unfold Buffer.read_from in Hr; rewrite (BufferProofs.slice_tail _ Hb) in Hr;
        discriminate.
  - destruct (Buffer.read_from (hbuf w) (Err e)) as [[b' res]|] eqn:Hr; simpl;
      [|exact Hw].
    replace b' with (hbuf w); [destruct res; exact Hw|].
    unfold Buffer.read_from in Hr; rewrite (BufferProofs.slice_tail _ Hb) in Hr.
    injection Hr as <- _; reflexivity.
Qed.

Lemma pres_write_to : preserves (@BufInv E N) (s_write_to T).
Proof.
  intros w Hw; unfold s_write_to, emit, BufInv in *.
  pose proof Hw as [Hb _].
  rewrite (BufferProofs.slice_pending _ Hb); simpl.
  destruct (stream_write T (net w) (Buffer.pending (hbuf w))) as [n' r] eqn:Hs.
  destruct r as [k|e].
  - pose proof (HW _ _ _ _ Hs) as Hk.
    rewrite (BufferProofs.pending_length _ Hb) in Hk.
    unfold Buffer.write_to; rewrite (BufferProofs.slice_pending _ Hb); simpl.
    exact (proj1 (BufferProofs.advance_inv _ _ Hw Hk)).
  - unfold Buffer.write_to; rewrite (BufferProofs.slice_pending _ Hb); simpl; exact Hw.
Qed.

Lemma pres_read_loop fuel : preserves (@BufInv E N) (read_loop C T fuel).
Proof.
  induction fuel as [|fuel IH]; cbn [read_loop]; [apply pres_halt|].
  apply pres_bind; [apply pres_engine_calls | intros wr].
  destruct (negb wr); [apply pres_ret|].
  apply pres_bind.
  - apply pres_bind; [apply pres_buf_is_empty | intros empty].
    destruct empty; [|apply pres_ret].
    apply pres_bind; [apply pres_unlock | intros ?].
    apply pres_bind; [apply pres_read_from | intros ?].
    apply pres_bind; [apply pres_lock | intros ?].
    apply pres_ret.
  - intros brk; destruct brk; [apply pres_ret|].
    apply pres_bind; [apply pres_read_tls | intros ?].
    apply pres_bind; [apply pres_engine_calls | intros ok].
    apply pres_bind; [destruct ok; [apply pres_ret | apply pres_fail] | intros ?].
    exact IH.
Qed.

Lemma pres_full_loop fuel : preserves (@BufInv E N) (@full_loop E N T fuel).
Proof.
  induction fuel as [|fuel IH]; cbn [full_loop]; [apply pres_halt|].
  apply pres_bind; [apply pres_buf_is_full | intros full].
  destruct (negb full); [apply pres_ret|].
  apply pres_bind; [apply pres_unlock | intros ?].
  apply pres_bind; [apply pres_write_to | intros ?].
  apply pres_bind; [apply pres_lock | intros ?].
  exact IH.
Qed.

Lemma pres_wants_write_body fuel : preserves (@BufInv E N) (wants_write_body C T fuel).
Proof.
  induction fuel as [|fuel IH]; cbn [wants_write_body]; [apply pres_halt|].
  apply pres_bind; [apply pres_engine_calls | intros ww].
  destruct (negb ww); [apply pres_ret|].
  apply pres_bind; [apply pres_full_loop | intros ?].
  apply pres_bind; [apply pres_write_tls | intros ?].
  exact IH.
Qed.

Lemma pres_drain_loop fuel : preserves (@BufInv E N) (@drain_loop E N T fuel).
Proof.
  induction fuel as [|fuel IH]; cbn [drain_loop]; [apply pres_halt|].
  apply pres_bind; [apply pres_buf_is_empty | intros empty].
  destruct empty; [apply pres_ret|].
  apply pres_bind; [apply pres_write_to | intros ?].
  exact IH.
Qed.

Lemma pres_flush fuel : preserves (@BufInv E N) (flush C T fuel).
Proof.
  apply pres_finally.
  apply pres_bind; [apply pres_engine_calls | intros r].
  apply pres_bind; [apply pres_lift | intros ?].
  apply pres_bind; [apply pres_on_error, pres_wants_write_body | intros ?].
  apply pres_bind; [apply pres_unlock | intros ?].
  apply pres_drain_loop.
Qed.

End Contracts.

(** X18: If the transport honours the [io::Read] and [io::Write] contracts,
    every operation of either half, whatever its outcome, leaves its staging
    buffer satisfying the buffer invariant ([start <= end <= capacity], and
    [start = end] only at [0]). *)
Theorem ops_preserve_buffer_inv (fuel : nat) (o : Op) (w : World E N) :
  read_contract T -> write_contract T -> BufInv w ->
  BufInv (fst (op_run C T fuel o w)).
Proof.
  intros HR HW Hw; destruct o; simpl; revert w Hw.
  - apply pres_finally.
    apply pres_bind; [apply pres_lock | intros ?].
    apply pres_bind; [apply pres_read_loop; assumption | intros ?].
    apply pres_bind; [apply pres_engine_calls | intros r].
    apply pres_lift.
  - apply pres_bind; [apply pres_engine_calls | intros r]; apply pres_lift.
  - apply pres_finally.
    apply pres_bind; [apply pres_lock | intros ?].
    apply pres_bind; [apply pres_on_error, pres_wants_write_body; assumption | intros ?].
    apply pres_bind; [apply pres_engine_calls | intros r].
    apply pres_lift.
  - apply pres_bind; [apply pres_lock | intros ?].
    apply pres_flush; assumption.
  - unfold write_half_shutdown; destruct (Shutdown_eqb how Read).
    + apply pres_bind; [apply pres_engine_calls | intros r]; apply pres_lift.
    + apply pres_bind; [apply pres_lock | intros ?].
      apply pres_bind; [apply pres_engine_calls | intros ?].
      apply pres_bind; [apply pres_try, pres_flush; assumption | intros res].
      apply pres_bind; [apply pres_engine_calls | intros r].
      apply pres_bind; [apply pres_lift | intros ?].
      apply pres_lift.
Qed.

End Preserve.

Lemma ops_preserve_buffer_inv_witness :
  read_contract cx_stream /\ write_contract cx_stream /\ BufInv one_world /\
  BufInv (fst (op_run rd_conn cx_stream 3 (OpRead 4) one_world)).
Proof.
  assert (HR : read_contract cx_stream)
    by (intros n k n' d H; injection H as _ <-; simpl; lia).
  assert (HW : write_contract cx_stream)
    by (intros n src n' k H; injection H as _ <-; lia).
  assert (Hw : BufInv one_world)
    by (unfold BufInv, BufferOps.buffer_inv, BufferOps.bounds, Buffer.capacity;
        simpl; lia).
  split; [exact HR | split; [exact HW | split; [exact Hw|]]].
  exact (ops_preserve_buffer_inv rd_conn cx_stream 3 (OpRead 4) one_world HR HW Hw).
Defined.

End PreserveProofs.
